(** * Espanso Hub frontend: package index service, search filters, routes

    A shallow embedding of the data-shaping code of the hub frontend:
    - [app/services/packages.ts]: fetching, validating and caching the
      package index, and the accessors built on it;
    - [app/services/search.ts]: text search, tag filtering, tag counting;
    - [app/routes/package.tsx]: the package route loader and the GitHub
      link derivation;
    - [react-router.config.ts]: the list of paths to prerender.

    Console output ([console.log], [console.error]) is not modelled: no
    function reads it back. *)

From Stdlib Require Import List NArith ZArith String Ascii Bool Lia.
From Stdlib Require Import Sorting.Sorted Permutation DecimalString.
Import ListNotations.

Set Implicit Arguments.

(* ================================================================== *)
(** * Values of the host language                                       *)
(* ================================================================== *)

Module JS.

(** A string is its sequence of UTF-16 code units: [trim], [===],
    [includes] and a regular expression without the [u] flag all work on
    code units. *)
Definition code_unit := N.
Definition jsstring := list code_unit.

(** String literals of the source (all of them ASCII). *)
Definition lit (s : string) : jsstring :=
  map N_of_ascii (list_ascii_of_string s).

(** [a === b] on strings. *)
Fixpoint str_eqb (a b : jsstring) : bool :=
  match a, b with
  | [], [] => true
  | x :: a', y :: b' => N.eqb x y && str_eqb a' b'
  | _, _ => false
  end.

(** Truthiness of a string: only the empty string is falsy. *)
Definition truthy (s : jsstring) : bool :=
  match s with [] => false | _ :: _ => true end.

(** Truthiness of an optional string ([undefined] is falsy). *)
Definition truthy_opt (s : option jsstring) : bool :=
  match s with Some s' => truthy s' | None => false end.

(** The code units [String.prototype.trim] strips: WhiteSpace (TAB, VT,
    FF, ZWNBSP and the Unicode space separators) and LineTerminator
    (LF, CR, LS, PS). *)
Definition is_white_space (c : code_unit) : bool :=
  existsb (N.eqb c)
    [9; 10; 11; 12; 13; 32; 160; 5760; 8232; 8233; 8239; 8287; 12288; 65279]%N
  || (N.leb 8192 c && N.leb c 8202).

Fixpoint trimStart (s : jsstring) : jsstring :=
  match s with
  | c :: s' => if is_white_space c then trimStart s' else s
  | [] => []
  end.

Definition trimEnd (s : jsstring) : jsstring := rev (trimStart (rev s)).

Definition trim (s : jsstring) : jsstring := trimEnd (trimStart s).

(** [`${n}`] for a non-negative integer. *)
Definition number_to_string (n : N) : jsstring :=
  lit (NilEmpty.string_of_uint (N.to_uint n)).

(** [Array.prototype.sort(comparefn)]: the sort is stable, and for a
    consistent comparator the result is the sorted order; that result is
    unique, and a stable insertion sort computes it. An element stays in
    front of the ones that follow it unless the comparator says it is
    strictly greater. *)
Fixpoint sort_insert (A : Type) (comparefn : A -> A -> Z) (x : A) (l : list A)
  : list A :=
  match l with
  | [] => [x]
  | y :: l' =>
      if Z.leb (comparefn x y) 0 then x :: l
      else y :: sort_insert comparefn x l'
  end.

Fixpoint sort (A : Type) (comparefn : A -> A -> Z) (l : list A) : list A :=
  match l with
  | [] => []
  | x :: l' => sort_insert comparefn x (sort comparefn l')
  end.

(** [Array.prototype.includes] on an array of strings. *)
Definition includes (l : list jsstring) (x : jsstring) : bool :=
  existsb (str_eqb x) l.

(** [new Set(iterable)] followed by [Array.from]: a set keeps its
    elements in insertion order, a value already present is not added
    again. *)
Definition Set_add (s : list jsstring) (x : jsstring) : list jsstring :=
  if includes s x then s else s ++ [x].

Definition Set_from (l : list jsstring) : list jsstring :=
  fold_left Set_add l [].

(** [Array.prototype.find]. *)
Definition find (A : Type) (f : A -> bool) (l : list A) : option A :=
  List.find f l.

(** What a rejected promise or a [throw] carries. *)
Inductive thrown : Type :=
| Error (message : jsstring)                      (* new Error(message) *)
| HttpResponse (body : jsstring) (status : N)     (* new Response(body, {status}) *)
| HostFailure (reason : jsstring).                (* raised by fetch or response.json *)

(** The outcome of awaiting an asynchronous computation. *)
Definition result (A : Type) : Type := (thrown + A)%type.

Definition ret (A : Type) (a : A) : result A := inr a.
Definition throw (A : Type) (e : thrown) : result A := inl e.
Arguments throw {A} e.
Definition bind (A B : Type) (c : result A) (k : A -> result B) : result B :=
  match c with
  | inl e => inl e
  | inr a => k a
  end.

Definition rejects (A : Type) (c : result A) : Prop :=
  exists e, c = inl e.

(** [String.prototype.split(",")]: the pieces between the commas; a
    string without a comma is one piece, the empty string included. *)
Definition comma : code_unit := 44%N.

Fixpoint split (s : jsstring) : list jsstring :=
  match s with
  | [] => [[]]
  | c :: s' =>
      if N.eqb c comma then [] :: split s'
      else
        match split s' with
        | piece :: pieces => (c :: piece) :: pieces
        | [] => [[c]]
        end
  end.

(** [Array.prototype.join(",")] on an array of strings. *)
Fixpoint join (l : list jsstring) : jsstring :=
  match l with
  | [] => []
  | [x] => x
  | x :: l' => x ++ comma :: join l'
  end.

(** [a < b] on strings: code unit by code unit. *)
Fixpoint str_ltb (a b : jsstring) : bool :=
  match a, b with
  | _, [] => false
  | [], _ :: _ => true
  | x :: a', y :: b' => N.ltb x y || (N.eqb x y && str_ltb a' b')
  end.

(** The comparison [Array.prototype.sort()] makes without a comparator,
    on strings. *)
Definition default_compare (a b : jsstring) : Z :=
  if str_ltb a b then (-1)%Z else if str_ltb b a then 1%Z else 0%Z.

(** Surrogates: a leading one (U+D800 to U+DBFF) followed by a trailing
    one (U+DC00 to U+DFFF) is one character; any other surrogate is a
    lone one. *)
Definition is_leading_surrogate (c : code_unit) : bool :=
  N.leb 55296 c && N.leb c 56319.

Definition is_trailing_surrogate (c : code_unit) : bool :=
  N.leb 56320 c && N.leb c 57343.

Definition replacement_character : code_unit := 65533%N.

(** [String.prototype.isWellFormed]: the string has no lone
    surrogate. *)
Fixpoint isWellFormed (s : jsstring) : bool :=
  match s with
  | [] => true
  | c :: s' =>
      if is_leading_surrogate c then
        match s' with
        | d :: s'' => is_trailing_surrogate d && isWellFormed s''
        | [] => false
        end
      else negb (is_trailing_surrogate c) && isWellFormed s'
  end.

(** [String.prototype.toWellFormed]: every lone surrogate becomes
    U+FFFD. The platform converts a string this way wherever it takes a
    string of scalar values, as [URLSearchParams] does with the names
    and the values it is given. *)
Fixpoint toWellFormed (s : jsstring) : jsstring :=
  match s with
  | [] => []
  | c :: s' =>
      if is_leading_surrogate c then
        match s' with
        | d :: s'' =>
            if is_trailing_surrogate d then c :: d :: toWellFormed s''
            else replacement_character :: toWellFormed s'
        | [] => [replacement_character]
        end
      else if is_trailing_surrogate c
           then replacement_character :: toWellFormed s'
           else c :: toWellFormed s'
  end.

End JS.

Import JS.

Declare Scope js_scope.
Delimit Scope js_scope with js.
Notation "x <- c ;; k" := (bind c (fun x => k))
  (at level 61, c at next level, right associativity) : js_scope.
Open Scope js_scope.

(* ================================================================== *)
(** * app/model/packages.ts                                             *)
(* ================================================================== *)

Module Model.

(** The output type of [PackageSchema]: the raw fields and the [id]
    added by the schema's transform. *)
Record Package : Type := mkPackage {
  name : jsstring;
  author : jsstring;
  description : jsstring;
  title : jsstring;
  version : jsstring;
  archive_url : jsstring;
  archive_sha256_url : jsstring;
  tags : list jsstring;
  id : jsstring
}.

(** The output type of [PackagesIndexSchema]. [last_update] is a
    timestamp that the code only copies. *)
Record PackagesIndex : Type := mkIndex {
  last_update : Z;
  packages : list Package
}.

End Model.

Import Model.

(* ================================================================== *)
(** * What the code takes from its libraries and its host               *)
(* ================================================================== *)

(** The result of [v.safeParse(PackagesIndexSchema, json)]. *)
Inductive parse_result (issues : Type) : Type :=
| Success (output : PackagesIndex)
| Failure (found : issues).

Arguments Success {issues} output.
Arguments Failure {issues} found.

(** The library and host functions the services call. Their code is not
    part of the repository; the services are written against this
    interface. *)
Class Host : Type := {
  (** [String.prototype.toLowerCase] *)
  toLowerCase : jsstring -> jsstring;
  (** [a.localeCompare(b, undefined, { numeric: true })] *)
  localeCompare : jsstring -> jsstring -> Z;
  (** [new Fuse(packages, { keys: ["name", "author", "description",
      "title"], threshold: 0.4 }).search(query).map(r => r.item)] *)
  fuse_search : list Package -> jsstring -> list Package;
  (** the values [response.json()] produces *)
  json : Type;
  (** the issues a failed validation reports *)
  issues : Type;
  (** [v.safeParse(PackagesIndexSchema, json)] *)
  safeParse : json -> parse_result issues;
  (** [JSON.stringify(v.flatten(issues), null, 2)] *)
  stringify_issues : issues -> jsstring
}.

(** [localeCompare] is a consistent comparator: it orders the strings
    totally, up to the strings it holds equal. *)
Class ConsistentCompare (H : Host) : Prop := {
  localeCompare_total :
    forall a b, (localeCompare a b <= 0)%Z \/ (localeCompare b a <= 0)%Z;
  localeCompare_trans :
    forall a b c,
      (localeCompare a b <= 0)%Z -> (localeCompare b c <= 0)%Z ->
      (localeCompare a c <= 0)%Z
}.

(* ================================================================== *)
(** * app/services/packages.ts                                          *)
(* ================================================================== *)

Module Packages.

(** [process.env.PACKAGE_INDEX_URL || "https://..."]: the environment
    variable when it is set and not empty, the default otherwise. *)
Definition PACKAGE_INDEX_URL (env : option jsstring) : jsstring :=
  match env with
  | Some (c :: url) => c :: url
  | _ => lit "https://github.com/espanso/hub/releases/download/v1.0.0/package_index.json"
  end.

Section WithHost.
Context {H : Host}.

(** The [Response] fields the code reads. [response.json()] is itself
    asynchronous: it resolves to the parsed body, or rejects with the
    host's reason when the body is not JSON. *)
Record Response : Type := mkResponse {
  ok : bool;
  status : N;
  statusText : jsstring;
  json_body : (jsstring + json)%type
}.

(** What [await fetch(PACKAGE_INDEX_URL)] gives: the promise rejects
    with the host's reason when no response arrives, and resolves to the
    response otherwise, whatever its status. *)
Inductive fetch_outcome : Type :=
| FetchRejected (reason : jsstring)
| FetchResponse (response : Response).

(** [await response.json()] *)
Definition await_json (response : Response) : result json :=
  match json_body response with
  | inl reason => throw (HostFailure reason)
  | inr json => ret json
  end.

Definition not_dummy (pkg : Package) : bool :=
  negb (str_eqb (name pkg) (lit "dummy-package")).

(** The body of the asynchronous function stored in [fetchPromise]
    (lines 80-121), up to the assignment to the cache, which
    [settle] below performs. *)
Definition fetch_and_validate (url : jsstring) (net : fetch_outcome)
  : result PackagesIndex :=
  match net with
  | FetchRejected reason => throw (HostFailure reason)
  | FetchResponse response =>
      if negb (ok response) then
        throw (Error (lit "Failed to fetch package index from " ++ url
                      ++ lit ": " ++ number_to_string (status response)
                      ++ lit " " ++ statusText response))
      else
        json <- await_json response ;;
        match safeParse json with
        | Success output =>
            let filteredPackages := filter not_dummy (packages output) in
            ret {| last_update := last_update output;
                   packages := filteredPackages |}
        | Failure found =>
            throw (Error (lit "Package index validation failed: "
                          ++ stringify_issues found))
        end
  end.

(** ** The module-level cache *)

(** The state of a promise created by [fetchPackagesIndex]. *)
Inductive promise_state : Type :=
| Pending
| Fulfilled (value : PackagesIndex)
| Rejected (reason : thrown).

(** The two module variables, the promises created so far (a promise is
    referred to by its position), and the number of calls of
    [fetch(PACKAGE_INDEX_URL)] made so far. *)
Record module_state : Type := mkState {
  cachedPackagesIndex : option PackagesIndex;
  fetchPromise : option nat;
  promises : list promise_state;
  network_requests : nat
}.

Definition initial : module_state :=
  {| cachedPackagesIndex := None; fetchPromise := None;
     promises := []; network_requests := 0 |}.

(** What a call of [fetchPackagesIndex] hands to its caller: the cached
    index, or the promise held in [fetchPromise] (the promise an async
    function returns settles as the promise it is resolved with). *)
Inductive returned : Type :=
| ReturnsIndex (index : PackagesIndex)
| ReturnsPromise (p : nat).

(** [fetchPackagesIndex], up to its first [await]. *)
Definition fetchPackagesIndex (st : module_state) : returned * module_state :=
  match cachedPackagesIndex st with
  | Some index => (ReturnsIndex index, st)
  | None =>
      match fetchPromise st with
      | Some p => (ReturnsPromise p, st)
      | None =>
          let p := List.length (promises st) in
          (ReturnsPromise p,
           {| cachedPackagesIndex := None;
              fetchPromise := Some p;
              promises := promises st ++ [Pending];
              network_requests := S (network_requests st) |})
      end
  end.

Fixpoint set_nth (A : Type) (n : nat) (x : A) (l : list A) : list A :=
  match l, n with
  | [], _ => []
  | _ :: l', O => x :: l'
  | y :: l', S n' => y :: set_nth n' x l'
  end.

(** The request of promise [p] is answered with [net]: the rest of the
    asynchronous function runs, fills the cache on success, and settles
    the promise. Between its two [await]s the function touches no module
    variable, so both are taken in one step. A promise settles once. *)
Definition settle (url : jsstring) (p : nat) (net : fetch_outcome)
  (st : module_state) : module_state :=
  match nth_error (promises st) p with
  | Some Pending =>
      match fetch_and_validate url net with
      | inr result =>
          {| cachedPackagesIndex := Some result;
             fetchPromise := fetchPromise st;
             promises := set_nth p (Fulfilled result) (promises st);
             network_requests := network_requests st |}
      | inl reason =>
          {| cachedPackagesIndex := cachedPackagesIndex st;
             fetchPromise := fetchPromise st;
             promises := set_nth p (Rejected reason) (promises st);
             network_requests := network_requests st |}
      end
  | _ => st
  end.

(** What happens in a build process: some caller calls
    [fetchPackagesIndex], or the network answers a request. *)
Inductive event : Type :=
| Call
| Answer (p : nat) (net : fetch_outcome).

Definition step (url : jsstring) (ev : event) (st : module_state)
  : module_state :=
  match ev with
  | Call => snd (fetchPackagesIndex st)
  | Answer p net => settle url p net st
  end.

Definition run (url : jsstring) (evs : list event) : module_state :=
  fold_left (fun st ev => step url ev st) evs initial.

(** ** The accessors

    Every accessor awaits [getPackagesIndex()]. Within one build all of
    them observe the outcome of the same single request, so each is a
    function of that outcome [net]. *)

Section Accessors.
Variable url : jsstring.
Variable net : fetch_outcome.

(** [await fetchPackagesIndex()]. *)
Definition await_fetchPackagesIndex : result PackagesIndex :=
  fetch_and_validate url net.

(** [getPackagesIndex]: the catch block logs the error and throws it
    again. *)
Definition getPackagesIndex : result PackagesIndex :=
  match await_fetchPackagesIndex with
  | inr index => ret index
  | inl error => throw error
  end.

Definition getUniquePackageNames : result (list jsstring) :=
  index <- getPackagesIndex ;;
  let uniqueNames := Set_from (map name (packages index)) in
  ret uniqueNames.

(** The comparator given to [sort] in [getPackageByName]. *)
Definition by_version_descending (a b : Package) : Z :=
  localeCompare (version b) (version a).

Definition getPackageByName (packageName : jsstring)
  : result (option Package) :=
  index <- getPackagesIndex ;;
  let packageVersions :=
    filter (fun pkg => str_eqb (name pkg) packageName) (packages index) in
  if Nat.eqb (List.length packageVersions) 0 then ret None
  else
    let sorted := sort by_version_descending packageVersions in
    ret (nth_error sorted 0).

(** The three accessors below are given in
    [.windsurf/plans/2025-10-23-single-package-page-migration.md],
    lines 64-86. *)
Definition getPackageByNameAndVersion (name' version' : jsstring)
  : result (option Package) :=
  index <- getPackagesIndex ;;
  ret (find (fun p => str_eqb (name p) name' && str_eqb (version p) version')
            (packages index)).

Definition getVersionsForPackage (name' : jsstring)
  : result (list jsstring) :=
  index <- getPackagesIndex ;;
  let versions :=
    sort (fun a b => localeCompare b a)
         (map version
              (filter (fun p => str_eqb (name p) name') (packages index))) in
  ret (Set_from versions).

Definition getAllPackageVersionPaths : result (list jsstring) :=
  index <- getPackagesIndex ;;
  ret (map (fun p => lit "/" ++ name p ++ lit "/v/" ++ version p)
           (packages index)).

End Accessors.
End WithHost.
End Packages.

(* ================================================================== *)
(** * app/services/search.ts                                            *)
(* ================================================================== *)

Module Search.
Section WithHost.
Context {H : Host}.

(** [!query || query.trim() === ""] *)
Definition blank (query : jsstring) : bool :=
  negb (truthy query) || str_eqb (trim query) [].

Definition textSearch (packages : list Package) (query : jsstring)
  : list Package :=
  if blank query then packages
  else fuse_search packages query.

(** An array is never falsy, so [!tags || tags.length === 0] is the
    length test. *)
Definition filterByTags (packages : list Package) (tags' : list jsstring)
  : list Package :=
  if Nat.eqb (List.length tags') 0 then packages
  else
    let lowerTags := map toLowerCase tags' in
    filter
      (fun pkg =>
         existsb (fun pkgTag => includes lowerTags (toLowerCase pkgTag))
                 (tags pkg))
      packages.

Record TagCount : Type := mkTagCount {
  tag : jsstring;
  count : N
}.

(** A [Map<string, number>]: its entries in insertion order. [set] on a
    key already present replaces the value where the entry stands. *)
Definition Map := list (jsstring * N).

Fixpoint Map_get (m : Map) (key : jsstring) : option N :=
  match m with
  | [] => None
  | (k, v) :: m' => if str_eqb k key then Some v else Map_get m' key
  end.

Fixpoint Map_set (m : Map) (key : jsstring) (value : N) : Map :=
  match m with
  | [] => [(key, value)]
  | (k, v) :: m' =>
      if str_eqb k key then (k, value) :: m'
      else (k, v) :: Map_set m' key value
  end.

(** [x || 0] for [x] a number or [undefined]. *)
Definition or_zero (x : option N) : N :=
  match x with
  | Some n => if N.eqb n 0 then 0%N else n
  | None => 0%N
  end.

Definition count_tag (tagCounts : Map) (tag' : jsstring) : Map :=
  let lowerTag := toLowerCase tag' in
  Map_set tagCounts lowerTag (or_zero (Map_get tagCounts lowerTag) + 1)%N.

Definition tally (packages : list Package) : Map :=
  fold_left (fun tagCounts pkg => fold_left count_tag (tags pkg) tagCounts)
            packages [].

Definition countTags (packages : list Package) : list TagCount :=
  let tagCounts := tally packages in
  sort (fun a b => (Z.of_N (count b) - Z.of_N (count a))%Z)
       (map (fun entry => {| tag := fst entry; count := snd entry |})
            tagCounts).

Definition applyFilters (packages : list Package) (textQuery : jsstring)
  (selectedTags : list jsstring) : list Package :=
  let results := packages in
  let results :=
    if truthy textQuery && negb (str_eqb (trim textQuery) [])
    then textSearch results textQuery else results in
  let results :=
    if Nat.ltb 0 (List.length selectedTags)
    then filterByTags results selectedTags else results in
  results.

End WithHost.
End Search.

(* ================================================================== *)
(** * app/routes/package.tsx                                            *)
(* ================================================================== *)

(** The first revision of the route: the latest version only. *)
Module PackageRouteLatest.
Section WithHost.
Context {H : Host}.
Variable url : jsstring.
Variable net : Packages.fetch_outcome.

Record LoaderData : Type := mkLoaderData {
  package : Package
}.

Definition loader (packageName : jsstring) : result LoaderData :=
  pkg <- Packages.getPackageByName url net packageName ;;
  match pkg with
  | None => throw (HttpResponse (lit "Package not found") 404)
  | Some p => ret {| package := p |}
  end.

End WithHost.
End PackageRouteLatest.

(** The route with versions. *)
Module PackageRoute.

Definition slash : code_unit := 47%N.

(** [/github\.com\/([^\/]+\/[^\/]+)/] *)

(** The literal part: [s] with the prefix [prefix] removed. *)
Fixpoint strip_prefix (prefix s : jsstring) : option jsstring :=
  match prefix, s with
  | [], _ => Some s
  | a :: prefix', b :: s' =>
      if N.eqb a b then strip_prefix prefix' s' else None
  | _ :: _, [] => None
  end.

(** [[^\/]*], greedy: the longest run without a slash, and what
    follows it. *)
Fixpoint span_non_slash (s : jsstring) : jsstring * jsstring :=
  match s with
  | [] => ([], [])
  | c :: s' =>
      if N.eqb c slash then ([], s)
      else let (run, rest) := span_non_slash s' in (c :: run, rest)
  end.

(** The expression tried at the start of [s]; the result is the capture
    group. The first [[^\/]+] is greedy and what follows it is a slash:
    a shorter run is followed by a character that is not a slash, so
    backtracking into it never helps. The second one ends the
    expression, so its longest run is taken. *)
Definition match_here (s : jsstring) : option jsstring :=
  match strip_prefix (lit "github.com/") s with
  | None => None
  | Some s1 =>
      match span_non_slash s1 with
      | ((_ :: _) as owner, c :: s2) =>
          match span_non_slash s2 with
          | ((_ :: _) as repo, _) => Some (owner ++ c :: repo)
          | ([], _) => None
          end
      | _ => None
      end
  end.

(** [archiveUrl.match(...)]: the expression is tried at each position
    from the left; the result is the capture group of the first match. *)
Fixpoint regexp_match (s : jsstring) : option jsstring :=
  match match_here s with
  | Some group => Some group
  | None =>
      match s with
      | [] => None
      | _ :: s' => regexp_match s'
      end
  end.

Definition getGitHubUrl (archiveUrl : jsstring) : option jsstring :=
  match regexp_match archiveUrl with
  | Some group => Some (lit "https://github.com/" ++ group)
  | None => None
  end.

Section WithHost.
Context {H : Host}.
Variable url : jsstring.
Variable net : Packages.fetch_outcome.

Record Params : Type := mkParams {
  packageName : jsstring;
  version : option jsstring
}.

Record LoaderData : Type := mkLoaderData {
  package : Package;
  versions : list jsstring;
  isLatest : bool
}.

(** The lookup the loader awaits first. *)
Definition lookup (params : Params) : result (option Package) :=
  match version params with
  | Some ((_ :: _) as version') =>
      Packages.getPackageByNameAndVersion url net (packageName params) version'
  | _ => Packages.getPackageByName url net (packageName params)
  end.

Definition loader (params : Params) : result LoaderData :=
  pkg <- lookup params ;;
  match pkg with
  | None =>
      throw (HttpResponse
               (if truthy_opt (version params)
                then lit "Package version not found"
                else lit "Package not found")
               404)
  | Some p =>
      versions' <- Packages.getVersionsForPackage url net (packageName params) ;;
      let isLatest' :=
        negb (truthy_opt (version params))
        || match nth_error versions' 0, version params with
           | Some latest, Some version' => str_eqb latest version'
           | _, _ => false
           end in
      ret {| package := p; versions := versions'; isLatest := isLatest' |}
  end.

End WithHost.
End PackageRoute.

(** The page of the route: what the component derives from the loader
    data (unnamed/part_002, lines 75-98). *)
Module PackagePage.

Definition installCommand (pkg : Package) (isLatest : bool) : jsstring :=
  if isLatest then lit "espanso install " ++ name pkg
  else lit "espanso install " ++ name pkg ++ lit " --version " ++ version pkg.

(** [handleVersionChange]: the path given to [navigate]. *)
Definition handleVersionChange (pkg : Package) (versions : list jsstring)
  (version' : jsstring) : jsstring :=
  if match nth_error versions 0 with
     | Some latest => str_eqb version' latest
     | None => false
     end
  then lit "/" ++ name pkg
  else lit "/" ++ name pkg ++ lit "/v/" ++ version'.

End PackagePage.

(* ================================================================== *)
(** * app/routes/search.tsx                                             *)
(* ================================================================== *)

Module SearchRoute.
Section WithHost.
Context {H : Host}.

(** The state of the page: the text of the search box, and the value of
    the parameter [t] of the URL, the only one the page reads or sets
    ([None] when the URL has none). *)
Record State : Type := mkState {
  textQuery : jsstring;
  searchParams : option jsstring
}.

Definition loader (url : jsstring) (net : Packages.fetch_outcome)
  : result (list Package) :=
  packagesIndex <- Packages.getPackagesIndex url net ;;
  ret (packages packagesIndex).

(** [searchParams.get("t")?.split(",").filter(Boolean) || []] *)
Definition selectedTags (st : State) : list jsstring :=
  match searchParams st with
  | Some value => filter truthy (split value)
  | None => []
  end.

Definition filteredPackages (packages : list Package) (st : State)
  : list Package :=
  Search.applyFilters packages (textQuery st) (selectedTags st).

(** [tagCounts.slice(0, 10)]: the tags offered as check boxes. *)
Definition shownTags (packages : list Package) : list Search.TagCount :=
  firstn 10 (Search.countTags packages).

(** [checked={selectedTags.includes(tag)}] *)
Definition checked (st : State) (tag' : jsstring) : bool :=
  includes (selectedTags st) tag'.

(** The first half of [toggleTag]: the selection with the tag taken
    out or put in. *)
Definition newTags (st : State) (tag' : jsstring) : list jsstring :=
  let lowerTag := toLowerCase tag' in
  if includes (selectedTags st) lowerTag
  then filter (fun t => negb (str_eqb t lowerTag)) (selectedTags st)
  else selectedTags st ++ [lowerTag].

(** [setSearchParams(init)], as the next render reads it back with
    [searchParams.get("t")]: [init] is [{ t: value }] or [{}]. The router
    builds a [URLSearchParams] from it, which holds strings of scalar
    values, navigates to its serialisation, and parses the query of the
    new location; a value comes back as it was stored. *)
Definition setSearchParams (t : option jsstring) : option jsstring :=
  match t with
  | Some value => Some (toWellFormed value)
  | None => None
  end.

Definition toggleTag (st : State) (tag' : jsstring) : State :=
  let newTags := newTags st tag' in
  if Nat.ltb 0 (List.length newTags)
  then {| textQuery := textQuery st;
          searchParams :=
            setSearchParams (Some (join (sort default_compare newTags))) |}
  else {| textQuery := textQuery st; searchParams := setSearchParams None |}.

Definition clearAllFilters (st : State) : State :=
  {| textQuery := []; searchParams := None |}.

Definition hasActiveFilters (st : State) : bool :=
  negb (str_eqb (trim (textQuery st)) [])
  || Nat.ltb 0 (List.length (selectedTags st)).

End WithHost.
End SearchRoute.

(* ================================================================== *)
(** * The schemas of the package model                                  *)
(* ================================================================== *)

(** The version schema and the [id] of a package, as
    [.windsurf/plans/2025-01-21-ssg-packages-index-migration.md],
    lines 96-127, gives them. *)
Module Schema.

(** [\d] without the [u] flag: an ASCII digit. *)
Definition is_digit (c : code_unit) : bool := N.leb 48 c && N.leb c 57.

Definition dot : code_unit := 46%N.

Definition hyphen : code_unit := 45%N.

(** [\d*], greedy: the longest run of digits, and what follows it. *)
Fixpoint span_digits (s : jsstring) : jsstring * jsstring :=
  match s with
  | [] => ([], [])
  | c :: s' =>
      if is_digit c
      then let (run, rest) := span_digits s' in (c :: run, rest)
      else ([], s)
  end.

(** [\d+\.] at the start of [s]: what follows it. A run of digits
    ends before a code unit that is not a digit, so the longest run is
    the only one a dot can follow. *)
Definition digits_dot (s : jsstring) : option jsstring :=
  match span_digits s with
  | (_ :: _, c :: rest) => if N.eqb c dot then Some rest else None
  | _ => None
  end.

(** [/^\d+\.\d+\.\d+$/.test(version)], the test of
    [PackageVersionSchema]. *)
Definition PackageVersionSchema (version' : jsstring) : bool :=
  match digits_dot version' with
  | Some s1 =>
      match digits_dot s1 with
      | Some s2 =>
          match span_digits s2 with
          | (_ :: _, []) => true
          | _ => false
          end
      | None => false
      end
  | None => false
  end.

(** [`${pkg.name}-${pkg.version}`], the [id] the transform of
    [PackageSchema] adds. *)
Definition make_id (name' version' : jsstring) : jsstring :=
  name' ++ hyphen :: version'.

End Schema.

(* ================================================================== *)
(** * react-router.config.ts                                            *)
(* ================================================================== *)

Module RouterConfig.
Section WithHost.
Context {H : Host}.
Variable url : jsstring.
Variable net : Packages.fetch_outcome.

(** [`/${name}`] *)
Definition package_path (name' : jsstring) : jsstring := lit "/" ++ name'.

(** The first revision (react-router.config.ts, lines 6-17): home and
    the latest page of every package. *)
Definition prerender_names : result (list jsstring) :=
  packageNames <- Packages.getUniquePackageNames url net ;;
  let paths := lit "/" :: map package_path packageNames in
  ret paths.

(** The revision with versioned pages (unnamed/part_000, lines 9-25):
    home, every package, every version. *)
Definition prerender : result (list jsstring) :=
  packageNames <- Packages.getUniquePackageNames url net ;;
  versionPaths <- Packages.getAllPackageVersionPaths url net ;;
  let paths := lit "/" :: map package_path packageNames ++ versionPaths in
  ret paths.

(** The revision of react-router.config.ts, lines 28-44: the search
    page is added, and [slice(0, 3)] keeps three packages and three
    versions. *)
Definition prerender_sliced : result (list jsstring) :=
  packageNames <- Packages.getUniquePackageNames url net ;;
  versionPaths <- Packages.getAllPackageVersionPaths url net ;;
  let paths :=
    [lit "/"; lit "/search"]
    ++ map package_path (firstn 3 packageNames)
    ++ firstn 3 versionPaths in
  ret paths.

End WithHost.
End RouterConfig.

(* ================================================================== *)
(** * A host to run the code on                                         *)
(* ================================================================== *)

(** A small host on which the services can be evaluated: strings are
    ASCII, versions are compared chunk by chunk with runs of digits read
    as numbers, the text search keeps the packages whose name is the
    query, and a JSON document is either a well-formed index or not. *)
Module SampleHost.

Definition lower (c : code_unit) : code_unit :=
  if N.leb 65 c && N.leb c 90 then (c + 32)%N else c.

Definition is_digit (c : code_unit) : bool := N.leb 48 c && N.leb c 57.

(** The chunks of a string: a run of digits is one chunk, its value;
    any other code unit is a chunk of its own. [pending] is the value of
    the run of digits being read, if any. *)
Fixpoint chunks (pending : option N) (s : jsstring) : list N :=
  match s with
  | [] => match pending with Some n => [n] | None => [] end
  | c :: s' =>
      if is_digit c then
        let n := match pending with Some n => n | None => 0%N end in
        chunks (Some (10 * n + (c - 48))%N) s'
      else
        match pending with
        | Some n => n :: c :: chunks None s'
        | None => c :: chunks None s'
        end
  end.

Fixpoint lex_le (a b : list N) : bool :=
  match a, b with
  | [], _ => true
  | _ :: _, [] => false
  | x :: a', y :: b' => N.ltb x y || (N.eqb x y && lex_le a' b')
  end.

Definition numeric_compare (a b : jsstring) : Z :=
  let ka := chunks None a in
  let kb := chunks None b in
  if lex_le ka kb then (if lex_le kb ka then 0%Z else (-1)%Z) else 1%Z.

#[export] Instance host : Host := {|
  toLowerCase := map lower;
  localeCompare := numeric_compare;
  fuse_search := fun packages query =>
    filter (fun pkg => str_eqb (name pkg) query) packages;
  json := option PackagesIndex;
  issues := unit;
  safeParse := fun json =>
    match json with
    | Some output => Success output
    | None => Failure tt
    end;
  stringify_issues := fun _ => lit "{}"
|}.

(** A package as [PackageSchema] outputs it, from its name, version and
    tags. *)
Definition pkg (name' version' : string) (tags' : list jsstring) : Package :=
  {| name := lit name';
     author := lit "espanso";
     description := lit "A package";
     title := lit name';
     version := lit version';
     archive_url :=
       lit "https://github.com/espanso/hub/releases/download/v1.0.0/"
       ++ lit name' ++ lit "-" ++ lit version' ++ lit ".zip";
     archive_sha256_url :=
       lit "https://github.com/espanso/hub/releases/download/v1.0.0/"
       ++ lit name' ++ lit "-" ++ lit version' ++ lit ".zip.sha256";
     tags := tags';
     id := lit name' ++ lit "-" ++ lit version' |}.

Definition url : jsstring := Packages.PACKAGE_INDEX_URL None.

(** A response with status 200 and the given index as its body. *)
Definition serves (index : PackagesIndex) : Packages.fetch_outcome :=
  Packages.FetchResponse
    {| Packages.ok := true; Packages.status := 200;
       Packages.statusText := lit "OK";
       Packages.json_body := inr (Some index) |}.

Definition small_index : PackagesIndex :=
  {| last_update := 1700000000;
     packages :=
       [ pkg "greek" "0.9.0" [lit "Math"; lit "languages"];
         pkg "dummy-package" "0.1.0" [lit "dummy"];
         pkg "greek" "0.10.0" [lit "math"];
         pkg "emoji" "1.2.0" [lit "Fun"; lit "emoji"; lit "fun"] ] |}.

(** What the services see when [small_index] is served. *)
Definition small_index_served : PackagesIndex :=
  {| last_update := 1700000000;
     packages :=
       [ pkg "greek" "0.9.0" [lit "Math"; lit "languages"];
         pkg "greek" "0.10.0" [lit "math"];
         pkg "emoji" "1.2.0" [lit "Fun"; lit "emoji"; lit "fun"] ] |}.

Definition four_packages : PackagesIndex :=
  {| last_update := 1700000000;
     packages :=
       [ pkg "accents" "1.0.0" [lit "languages"];
         pkg "basic-emojis" "1.0.0" [lit "emoji"];
         pkg "cargo" "1.0.0" [lit "rust"];
         pkg "dates" "1.0.0" [lit "time"] ] |}.

End SampleHost.

(* ================================================================== *)
(** * Words of the specification                                        *)
(* ================================================================== *)

(** [Selection P l l']: [l'] is [l] with exactly the elements that
    satisfy [P] kept, each where it stood. *)
Inductive Selection (A : Type) (P : A -> Prop) : list A -> list A -> Prop :=
| Selection_nil : Selection P [] []
| Selection_keep x l l' :
    P x -> Selection P l l' -> Selection P (x :: l) (x :: l')
| Selection_drop x l l' :
    ~ P x -> Selection P l l' -> Selection P (x :: l) l'.

(** A query made of white space only (the empty query is one). *)
Definition all_white_space (query : jsstring) : Prop :=
  Forall (fun c => is_white_space c = true) query.

(** A package carries one of the selected tags, lower case compared
    with lower case. *)
Definition has_selected_tag {H : Host} (selected : list jsstring)
  (pkg : Package) : Prop :=
  exists pkgTag wanted,
    In pkgTag (tags pkg) /\ In wanted selected
    /\ toLowerCase pkgTag = toLowerCase wanted.

(** [before comparefn a b]: the comparator lets [a] stand in front of
    [b]. *)
Definition before (A : Type) (comparefn : A -> A -> Z) (a b : A) : Prop :=
  (comparefn a b <= 0)%Z.

(** The number of elements of [l] equal to [t]. *)
Definition occurrences (t : jsstring) (l : list jsstring) : N :=
  N.of_nat (List.length (filter (str_eqb t) l)).

(** Every tag of every package, in lower case, with repetitions. *)
Definition lowered_tags {H : Host} (packages : list Package) : list jsstring :=
  map toLowerCase (flat_map tags packages).

(** The keys of a map, and the count a map holds for a key (zero when
    it holds none). *)
Definition keys (m : Search.Map) : list jsstring := map fst m.

Definition counted (m : Search.Map) (key : jsstring) : N :=
  Search.or_zero (Search.Map_get m key).

Section IndexWords.
Context {H : Host}.
Import Packages.

(** The ways the single request can end. *)
Definition no_response (net : fetch_outcome) : Prop :=
  exists reason, net = FetchRejected reason.

Definition response_not_ok (net : fetch_outcome) : Prop :=
  exists response, net = FetchResponse response /\ ok response = false.

Definition body_not_json (net : fetch_outcome) : Prop :=
  exists response reason,
    net = FetchResponse response /\ json_body response = inl reason.

Definition fails_validation (net : fetch_outcome) : Prop :=
  exists response json found,
    net = FetchResponse response /\ json_body response = inr json
    /\ safeParse json = Failure found.

(** [index] is the validated output for the body of the response, less
    the dummy packages. *)
Definition validated_from (net : fetch_outcome) (index : PackagesIndex) : Prop :=
  exists response json output,
    net = FetchResponse response /\ ok response = true
    /\ json_body response = inr json
    /\ safeParse json = Success output
    /\ last_update index = last_update output
    /\ packages index = filter not_dummy (packages output).

Definition is_dummy (pkg : Package) : Prop := name pkg = lit "dummy-package".

End IndexWords.

(** The entries of the index with a given name. *)
Definition versions_of (index : PackagesIndex) (packageName : jsstring)
  : list Package :=
  filter (fun pkg => str_eqb (name pkg) packageName) (packages index).

(** What holds of the module variables at every moment of a build:
    nothing has happened yet, or one request was made, its promise is
    the one [fetchPromise] holds, and the cache is filled exactly when
    that promise is fulfilled. *)
Definition cache_invariant {H : Host} (st : Packages.module_state) : Prop :=
  st = Packages.initial
  \/ exists status,
       Packages.fetchPromise st = Some 0
       /\ Packages.promises st = [status]
       /\ Packages.network_requests st = 1
       /\ Packages.cachedPackagesIndex st
          = match status with
            | Packages.Fulfilled index => Some index
            | _ => None
            end.

Section GitHubWords.
Import PackageRoute.

(** A path component: at least one code unit, none of them a slash. *)
Definition component (c : jsstring) : Prop := c <> [] /\ ~ In slash c.

(** [s] reads [pre], then "github.com/", then [owner], a slash and
    [repo], both components, then [rest]. *)
Definition repository_at (s pre owner repo rest : jsstring) : Prop :=
  s = pre ++ lit "github.com/" ++ owner ++ slash :: repo ++ rest
  /\ component owner /\ component repo.

(** [rest] begins after the end of a component. *)
Definition ends_component (rest : jsstring) : Prop :=
  rest = [] \/ exists rest', rest = slash :: rest'.

End GitHubWords.

(** [`/${name}/v/${version}`] *)
Definition version_path (pkg : Package) : jsstring :=
  lit "/" ++ name pkg ++ lit "/v/" ++ version pkg.

(** The values of a list, each kept where it first occurs. *)
Fixpoint first_occurrences (l : list jsstring) : list jsstring :=
  match l with
  | [] => []
  | x :: l' =>
      x :: filter (fun y => negb (str_eqb y x)) (first_occurrences l')
  end.

(** [a] may stand in front of [b] when versions are listed latest
    first. *)
Definition latest_first {H : Host} (a b : jsstring) : Prop :=
  (localeCompare b a <= 0)%Z.

(** A tag that survives the URL: not empty, and without a comma. *)
Definition plain_tag (tag' : jsstring) : Prop :=
  tag' <> [] /\ ~ In comma tag'.

(** A string without lone surrogate. *)
Definition well_formed (s : jsstring) : Prop := isWellFormed s = true.

(** The parameter of the page has no lone surrogate: so it is when the
    page is opened at a URL, whose query the platform decodes to scalar
    values, and so it stays when the page sets it. *)
Definition well_formed_state (st : SearchRoute.State) : Prop :=
  match SearchRoute.searchParams st with
  | Some value => well_formed value
  | None => True
  end.

(** [toLowerCase] leaves a lower-case string as it is. *)
Definition lower_case_stable (H : Host) : Prop :=
  forall s, toLowerCase (toLowerCase s) = toLowerCase s.

(** The sum of the counts of a list of tag counts. *)
Definition total_count (l : list Search.TagCount) : N :=
  fold_right (fun entry n => (Search.count entry + n)%N) 0%N l.

(** The versions an index lists for a package name: latest first,
    each once. *)
Definition versions_list {H : Host} (index : PackagesIndex)
  (packageName : jsstring) : list jsstring :=
  Set_from (sort (fun a b => localeCompare b a)
                 (map version (versions_of index packageName))).

(* ================================================================== *)
(** * Facts about the host language                                     *)
(* ================================================================== *)

Section StringFacts.

Lemma str_eqb_eq (a b : jsstring) : str_eqb a b = true <-> a = b.
Proof.
  revert b; induction a as [|x a IH]; intros [|y b]; simpl;
    try (split; [discriminate | discriminate]); try tauto.
  rewrite andb_true_iff, N.eqb_eq, IH.
  split; [intros [-> ->]; reflexivity | intros E; injection E; auto].
Qed.

Lemma str_eqb_refl (a : jsstring) : str_eqb a a = true.
Proof. apply str_eqb_eq; reflexivity. Qed.

Lemma str_eqb_neq (a b : jsstring) : str_eqb a b = false <-> a <> b.
Proof.
  rewrite <- str_eqb_eq. destruct (str_eqb a b); split; congruence.
Qed.

Lemma str_eqb_sym (a b : jsstring) : str_eqb a b = str_eqb b a.
Proof.
  destruct (str_eqb a b) eqn:E.
  - apply str_eqb_eq in E; subst; symmetry; apply str_eqb_refl.
  - destruct (str_eqb b a) eqn:E'; [|reflexivity].
    apply str_eqb_eq in E'; subst. rewrite str_eqb_refl in E; discriminate.
Qed.

Lemma includes_In (l : list jsstring) (x : jsstring) :
  includes l x = true <-> In x l.
Proof.
  unfold includes. rewrite existsb_exists. split.
  - intros [y [Hy E]]. apply str_eqb_eq in E; subst; assumption.
  - intros Hx. exists x; split; [assumption | apply str_eqb_refl].
Qed.

Lemma trimStart_all (s : jsstring) :
  trimStart s = [] <-> all_white_space s.
Proof.
  unfold all_white_space. induction s as [|c s IH]; simpl.
  - split; [constructor | reflexivity].
  - destruct (is_white_space c) eqn:E.
    + rewrite IH. split; [constructor; assumption | inversion 1; assumption].
    + split; [discriminate | inversion 1; congruence].
Qed.

Lemma trimStart_head (s : jsstring) :
  match trimStart s with
  | [] => True
  | c :: _ => is_white_space c = false
  end.
Proof.
  induction s as [|c s IH]; simpl; [exact I|].
  destruct (is_white_space c) eqn:E; [exact IH | exact E].
Qed.

(** [trim] leaves nothing exactly when the string is white space. *)
Lemma trim_empty (s : jsstring) : trim s = [] <-> all_white_space s.
Proof.
  unfold trim, trimEnd. split.
  - intros E. apply trimStart_all.
    assert (E' : trimStart (rev (trimStart s)) = []).
    { destruct (trimStart (rev (trimStart s))) as [|c t]; [reflexivity|].
      simpl in E. destruct (rev t); discriminate. }
    apply trimStart_all in E'.
    pose proof (trimStart_head s) as Hh.
    destruct (trimStart s) as [|c t]; [reflexivity|].
    exfalso. unfold all_white_space in E'.
    rewrite Forall_forall in E'.
    specialize (E' c). rewrite <- in_rev in E'.
    rewrite E' in Hh; [discriminate | left; reflexivity].
  - intros Hs. apply trimStart_all in Hs. rewrite Hs. reflexivity.
Qed.

Lemma blank_iff {H : Host} (query : jsstring) :
  Search.blank query = true <-> all_white_space query.
Proof.
  unfold Search.blank. rewrite orb_true_iff, str_eqb_eq, trim_empty.
  split; [|auto].
  intros [E|E]; [|assumption].
  destruct query; [constructor | discriminate].
Qed.

End StringFacts.

Section ListFacts.
Variable A : Type.

Lemma filter_Selection (f : A -> bool) (P : A -> Prop) (l : list A) :
  (forall x, f x = true <-> P x) -> Selection P l (filter f l).
Proof.
  intros HP. induction l as [|x l IH]; simpl; [constructor|].
  destruct (f x) eqn:E.
  - apply Selection_keep; [apply HP; assumption | assumption].
  - apply Selection_drop; [|assumption].
    intros Hx. apply HP in Hx. congruence.
Qed.

Lemma Selection_In (P : A -> Prop) (l l' : list A) :
  Selection P l l' -> forall x, In x l' <-> In x l /\ P x.
Proof.
  induction 1 as [|x l l' Hx _ IH|x l l' Hx _ IH]; intros y; simpl.
  - tauto.
  - rewrite IH. split.
    + intros [->|[? ?]]; auto.
    + intros [[->|?] ?]; auto.
  - rewrite IH. split.
    + intros [? ?]; auto.
    + intros [[->|?] ?]; [contradiction | auto].
Qed.

End ListFacts.

(* ================================================================== *)
(** * Search filters                                                    *)
(* ================================================================== *)

Section SearchFacts.
Context {H : Host}.

Lemma textSearch_blank (packages : list Package) (query : jsstring) :
  all_white_space query -> Search.textSearch packages query = packages.
Proof.
  intros Hq. unfold Search.textSearch.
  apply blank_iff in Hq. rewrite Hq. reflexivity.
Qed.

Lemma filterByTags_nil (packages : list Package) :
  Search.filterByTags packages [] = packages.
Proof. reflexivity. Qed.

Lemma applyFilters_compose (packages : list Package) (textQuery : jsstring)
  (selectedTags : list jsstring) :
  Search.applyFilters packages textQuery selectedTags
  = Search.filterByTags (Search.textSearch packages textQuery) selectedTags.
Proof.
  unfold Search.applyFilters.
  assert (E : truthy textQuery && negb (str_eqb (trim textQuery) [])
              = negb (Search.blank textQuery)).
  { unfold Search.blank. rewrite negb_orb, negb_involutive. reflexivity. }
  rewrite E.
  destruct (Search.blank textQuery) eqn:B; simpl.
  - unfold Search.textSearch at 1. rewrite B.
    destruct selectedTags; reflexivity.
  - destruct selectedTags; reflexivity.
Qed.

(** C3: [applyFilters] is [textSearch] followed by [filterByTags];
    [textSearch] returns its input for a query that is empty or white
    space only, [filterByTags] returns its input for an empty tag list,
    and so [applyFilters] with such a query and no tag returns the
    package list it was given. *)
Theorem applyFilters_textSearch_then_filterByTags
  (packages : list Package) (textQuery : jsstring)
  (selectedTags : list jsstring) :
  Search.applyFilters packages textQuery selectedTags
  = Search.filterByTags (Search.textSearch packages textQuery) selectedTags
  /\ (textQuery = [] \/ all_white_space textQuery ->
      Search.textSearch packages textQuery = packages)
  /\ Search.filterByTags packages [] = packages
  /\ (textQuery = [] \/ all_white_space textQuery ->
      Search.applyFilters packages textQuery [] = packages).
Proof.
  assert (W : textQuery = [] \/ all_white_space textQuery ->
              all_white_space textQuery).
  { intros [->|Hq]; [constructor | assumption]. }
  repeat split.
  - apply applyFilters_compose.
  - intros Hq. apply textSearch_blank, W, Hq.
  - intros Hq. rewrite applyFilters_compose, filterByTags_nil.
    apply textSearch_blank, W, Hq.
Qed.

Lemma selected_by_tags (selected : list jsstring) (pkg : Package) :
  existsb (fun pkgTag => includes (map toLowerCase selected) (toLowerCase pkgTag))
          (tags pkg) = true
  <-> has_selected_tag selected pkg.
Proof.
  unfold has_selected_tag. rewrite existsb_exists. split.
  - intros [pkgTag [Ht Hi]]. apply includes_In in Hi.
    apply in_map_iff in Hi. destruct Hi as [wanted [E Hw]].
    exists pkgTag, wanted. auto.
  - intros [pkgTag [wanted [Ht [Hw E]]]].
    exists pkgTag. split; [assumption|].
    apply includes_In. rewrite E. apply in_map. assumption.
Qed.

(** C4: for a tag list that is not empty, [filterByTags] keeps exactly
    the packages that carry a tag equal, in lower case, to a selected
    tag in lower case (one selected tag is enough); the packages kept
    stand in the order of the input, and each is an element of it. *)
Theorem filterByTags_selects (packages : list Package)
  (selected : list jsstring) :
  selected <> [] ->
  Selection (has_selected_tag selected) packages
            (Search.filterByTags packages selected)
  /\ (forall pkg,
        In pkg (Search.filterByTags packages selected)
        <-> In pkg packages /\ has_selected_tag selected pkg)
  /\ incl (Search.filterByTags packages selected) packages.
Proof.
  intros Hne.
  assert (S : Selection (has_selected_tag selected) packages
                (Search.filterByTags packages selected)).
  { unfold Search.filterByTags.
    destruct selected as [|t ts]; [contradiction|]. simpl Nat.eqb. cbv iota.
    apply filter_Selection. intros pkg. apply selected_by_tags. }
  split; [exact S|]. split.
  - apply (Selection_In S).
  - intros pkg Hp. apply (Selection_In S) in Hp. tauto.
Qed.

End SearchFacts.

Lemma applyFilters_textSearch_then_filterByTags_witness :
  all_white_space (lit "  ")
  /\ Search.applyFilters (H := SampleHost.host)
       (packages SampleHost.small_index) (lit "  ") []
     = packages SampleHost.small_index.
Proof.
  assert (W : all_white_space (lit "  ")) by (repeat constructor).
  split; [exact W|].
  apply (applyFilters_textSearch_then_filterByTags
           (H := SampleHost.host) (packages SampleHost.small_index)
           (lit "  ") []).
  right; exact W.
Defined.

Lemma filterByTags_selects_witness :
  [lit "MATH"] <> []
  /\ incl (Search.filterByTags (H := SampleHost.host)
             (packages SampleHost.small_index) [lit "MATH"])
          (packages SampleHost.small_index).
Proof.
  split; [discriminate|].
  apply (filterByTags_selects (H := SampleHost.host)
           (packages SampleHost.small_index) (selected := [lit "MATH"])).
  discriminate.
Defined.

(* ================================================================== *)
(** * Sorting                                                           *)
(* ================================================================== *)

Section SortFacts.
Variable A : Type.
Variable comparefn : A -> A -> Z.

Local Abbreviation before := (before comparefn).

Lemma sort_insert_perm (x : A) (l : list A) :
  Permutation (sort_insert comparefn x l) (x :: l).
Proof.
  induction l as [|y l IH]; simpl; [reflexivity|].
  destruct (Z.leb (comparefn x y) 0); [reflexivity|].
  rewrite IH. apply perm_swap.
Qed.

Lemma sort_perm (l : list A) : Permutation (sort comparefn l) l.
Proof.
  induction l as [|x l IH]; simpl; [reflexivity|].
  rewrite sort_insert_perm. apply perm_skip, IH.
Qed.

Lemma sort_In (l : list A) (x : A) : In x (sort comparefn l) <-> In x l.
Proof.
  split; apply Permutation_in;
    [apply sort_perm | symmetry; apply sort_perm].
Qed.

Lemma sort_length (l : list A) :
  List.length (sort comparefn l) = List.length l.
Proof. apply Permutation_length, sort_perm. Qed.

Hypothesis before_total : forall a b, before a b \/ before b a.
Hypothesis before_trans : forall a b c, before a b -> before b c -> before a c.

Lemma sort_insert_sorted (x : A) (l : list A) :
  StronglySorted before l -> StronglySorted before (sort_insert comparefn x l).
Proof.
  induction 1 as [|y l Hs IH Hy]; simpl.
  - constructor; constructor.
  - destruct (Z.leb (comparefn x y) 0) eqn:E.
    + apply Z.leb_le in E.
      constructor; [constructor; assumption|].
      constructor; [exact E|].
      eapply Forall_impl; [|exact Hy].
      intros z Hz. apply before_trans with y; assumption.
    + apply Z.leb_gt in E.
      constructor; [exact IH|].
      apply Permutation_Forall with (x :: l);
        [symmetry; apply sort_insert_perm|].
      constructor; [|assumption].
      destruct (before_total x y) as [B|B]; [unfold before in B; lia | exact B].
Qed.

Lemma sort_sorted (l : list A) : StronglySorted before (sort comparefn l).
Proof.
  induction l as [|x l IH]; simpl; [constructor|].
  apply sort_insert_sorted, IH.
Qed.

(** The first element of the sorted array may stand in front of every
    element. *)
Lemma sort_first (l : list A) (x : A) :
  nth_error (sort comparefn l) 0 = Some x ->
  In x l /\ forall y, In y l -> before x y.
Proof.
  intros E. pose proof (sort_sorted l) as Hs.
  destruct (sort comparefn l) as [|z s] eqn:Es; [discriminate|].
  simpl in E. injection E as ->.
  assert (Hx : In x l) by (apply sort_In; rewrite Es; left; reflexivity).
  split; [exact Hx|].
  intros y Hy. apply sort_In in Hy. rewrite Es in Hy.
  inversion Hs as [|? ? _ Hall]; subst.
  destruct Hy as [<-|Hy].
  - destruct (before_total x x); assumption.
  - rewrite Forall_forall in Hall. apply Hall, Hy.
Qed.

End SortFacts.

(* ================================================================== *)
(** * Tag counts                                                        *)
(* ================================================================== *)

Section MapFacts.
Import Search.

Lemma or_zero_Some (n : N) : or_zero (Some n) = n.
Proof.
  unfold or_zero. destruct (N.eqb n 0) eqn:E; [|reflexivity].
  apply N.eqb_eq in E; congruence.
Qed.

Lemma Map_get_set (m : Map) (key key' : jsstring) (value : N) :
  Map_get (Map_set m key value) key'
  = if str_eqb key key' then Some value else Map_get m key'.
Proof.
  induction m as [|[k v] m IH]; simpl.
  - reflexivity.
  - destruct (str_eqb k key) eqn:E; simpl.
    + apply str_eqb_eq in E; subst k.
      destruct (str_eqb key key'); reflexivity.
    + rewrite IH. destruct (str_eqb k key') eqn:E'; [|reflexivity].
      apply str_eqb_eq in E'; subst k. rewrite str_eqb_sym, E. reflexivity.
Qed.

Lemma keys_set (m : Map) (key : jsstring) (value : N) :
  keys (Map_set m key value)
  = if includes (keys m) key then keys m else keys m ++ [key].
Proof.
  unfold keys, includes. induction m as [|[k v] m IH]; simpl.
  - reflexivity.
  - rewrite (str_eqb_sym key k).
    destruct (str_eqb k key) eqn:E; simpl; [reflexivity|].
    rewrite IH. destruct (existsb (str_eqb key) (map fst m)); reflexivity.
Qed.

Lemma keys_set_In (m : Map) (key : jsstring) (value : N) (k : jsstring) :
  In k (keys (Map_set m key value)) <-> In k (keys m) \/ k = key.
Proof.
  rewrite keys_set. destruct (includes (keys m) key) eqn:E.
  - apply includes_In in E. split; [auto | intros [?| ->]; assumption].
  - rewrite in_app_iff. simpl. intuition congruence.
Qed.

Lemma keys_set_NoDup (m : Map) (key : jsstring) (value : N) :
  NoDup (keys m) -> NoDup (keys (Map_set m key value)).
Proof.
  intros Hm. rewrite keys_set. destruct (includes (keys m) key) eqn:E.
  - assumption.
  - apply NoDup_app; [assumption | repeat constructor; auto |].
    intros x Hx [<-|[]].
    apply includes_In in Hx. congruence.
Qed.

Lemma Map_get_In (m : Map) (key : jsstring) (value : N) :
  NoDup (keys m) -> In (key, value) m -> Map_get m key = Some value.
Proof.
  induction m as [|[k v] m IH]; simpl; [tauto|].
  intros Hm [E|Hin].
  - injection E as -> ->. rewrite str_eqb_refl. reflexivity.
  - inversion Hm as [|? ? Hk Hm']; subst.
    destruct (str_eqb k key) eqn:E.
    + apply str_eqb_eq in E; subst k. exfalso. apply Hk.
      apply (in_map fst) in Hin. exact Hin.
    + apply IH; assumption.
Qed.

Lemma occurrences_cons (t x : jsstring) (l : list jsstring) :
  occurrences t (x :: l)
  = ((if str_eqb t x then 1 else 0) + occurrences t l)%N.
Proof.
  unfold occurrences. cbn [filter].
  destruct (str_eqb t x); cbn [List.length]; lia.
Qed.

Context {H : Host}.

Lemma counted_count_tag (m : Map) (tag' key : jsstring) :
  counted (count_tag m tag') key
  = ((if str_eqb key (toLowerCase tag') then 1 else 0) + counted m key)%N.
Proof.
  unfold counted, count_tag. rewrite Map_get_set.
  rewrite (str_eqb_sym key).
  destruct (str_eqb (toLowerCase tag') key) eqn:E.
  - apply str_eqb_eq in E; subst key. rewrite or_zero_Some. lia.
  - lia.
Qed.

(** What the two nested loops leave in the map. *)
Lemma fold_count_tag (l : list jsstring) (m : Map) :
  NoDup (keys m) ->
  NoDup (keys (fold_left count_tag l m))
  /\ (forall k, In k (keys (fold_left count_tag l m))
                <-> In k (keys m) \/ In k (map toLowerCase l))
  /\ (forall k, counted (fold_left count_tag l m) k
                = (counted m k + occurrences k (map toLowerCase l))%N).
Proof.
  revert m. induction l as [|t l IH]; intros m Hm; simpl.
  - split; [assumption|]. split.
    + intros k. tauto.
    + intros k. unfold occurrences; simpl. lia.
  - destruct (IH (count_tag m t)) as [N1 [I1 C1]].
    { apply keys_set_NoDup, Hm. }
    split; [exact N1|]. split.
    + intros k. rewrite I1. unfold count_tag at 1. rewrite keys_set_In.
      intuition congruence.
    + intros k. rewrite C1, counted_count_tag, occurrences_cons. lia.
Qed.

Lemma tally_flat (packages : list Package) :
  tally packages = fold_left count_tag (flat_map tags packages) [].
Proof.
  unfold tally. generalize (@nil (jsstring * N)) as m.
  induction packages as [|pkg packages IH]; intros m; simpl; [reflexivity|].
  rewrite fold_left_app. apply IH.
Qed.

Lemma StronglySorted_weaken (A : Type) (R S : A -> A -> Prop) (l : list A) :
  (forall a b, R a b -> S a b) -> StronglySorted R l -> StronglySorted S l.
Proof.
  intros RS. induction 1 as [|x l _ IH Hx]; constructor; [assumption|].
  eapply Forall_impl; [|exact Hx]. intros b. apply RS.
Qed.

(** C9: [countTags] returns one entry for each lower-case tag that
    occurs in some package's tags; its count is the number of tag
    occurrences, over all packages, whose lower case is that tag (a
    package that lists a tag twice, or in two casings, counts twice);
    the entries are sorted by count, greatest first. *)
Theorem countTags_counts_occurrences (packages : list Package) :
  NoDup (map tag (countTags packages))
  /\ (forall t, In t (map tag (countTags packages))
                <-> In t (lowered_tags packages))
  /\ (forall entry, In entry (countTags packages) ->
        count entry = occurrences (tag entry) (lowered_tags packages))
  /\ StronglySorted (fun a b => (count b <= count a)%N) (countTags packages).
Proof.
  unfold countTags, lowered_tags.
  set (cmp := fun a b : TagCount => (Z.of_N (count b) - Z.of_N (count a))%Z).
  set (entries := map (fun entry => {| tag := fst entry; count := snd entry |})
                      (tally packages)).
  destruct (@fold_count_tag (flat_map tags packages) []) as [N1 [I1 C1]];
    [constructor|].
  rewrite <- tally_flat in N1, I1, C1.
  assert (Etag : map tag entries = keys (tally packages)).
  { unfold entries, keys. rewrite map_map. reflexivity. }
  assert (P : Permutation (map tag (sort cmp entries)) (keys (tally packages))).
  { rewrite <- Etag. apply Permutation_map, sort_perm. }
  split; [|split; [|split]].
  - apply Permutation_NoDup with (keys (tally packages));
      [symmetry; exact P | exact N1].
  - intros t. split; intros Ht.
    + apply (Permutation_in _ P), I1 in Ht. destruct Ht as [[]|Ht]. exact Ht.
    + apply (Permutation_in _ (Permutation_sym P)), I1. right. exact Ht.
  - intros entry He. apply sort_In in He. unfold entries in He.
    apply in_map_iff in He. destruct He as [[k v] [<- Hkv]]. simpl.
    pose proof (C1 k) as Ck. unfold counted in Ck.
    rewrite (@Map_get_In _ k v N1 Hkv), or_zero_Some in Ck. simpl in Ck.
    exact Ck.
  - apply StronglySorted_weaken with (R := before cmp).
    + unfold before, cmp. intros a b. lia.
    + apply sort_sorted; unfold before, cmp; intros; lia.
Qed.

End MapFacts.

(* ================================================================== *)
(** * The package index                                                 *)
(* ================================================================== *)

Section IndexFacts.
Context {H : Host}.
Import Packages.
Variable url : jsstring.

Lemma getPackagesIndex_await (net : fetch_outcome) :
  getPackagesIndex url net = await_fetchPackagesIndex url net.
Proof.
  unfold getPackagesIndex. destruct (await_fetchPackagesIndex url net); reflexivity.
Qed.

Lemma not_dummy_iff (pkg : Package) : not_dummy pkg = true <-> ~ is_dummy pkg.
Proof.
  unfold not_dummy, is_dummy. rewrite negb_true_iff. apply str_eqb_neq.
Qed.

Lemma fetch_and_validate_success (net : fetch_outcome) (index : PackagesIndex) :
  fetch_and_validate url net = inr index -> validated_from net index.
Proof.
  unfold fetch_and_validate, validated_from, await_json.
  destruct net as [reason|response]; [discriminate|].
  destruct (ok response) eqn:Ok; simpl; [|discriminate].
  destruct (json_body response) as [reason|json] eqn:J; simpl; [discriminate|].
  destruct (safeParse json) as [output|found] eqn:Pr; [|discriminate].
  intros E. injection E as <-.
  exists response, json, output. simpl. auto 10.
Qed.

Lemma fetch_and_validate_failure (net : fetch_outcome) (e : thrown) :
  fetch_and_validate url net = inl e ->
  ((exists message, e = Error message) \/ (exists reason, e = HostFailure reason))
  /\ (no_response net \/ response_not_ok net \/ body_not_json net
      \/ fails_validation net).
Proof.
  unfold fetch_and_validate, await_json.
  destruct net as [reason|response].
  - intros E. injection E as <-. split; [eauto|]. left. exists reason. reflexivity.
  - destruct (ok response) eqn:Ok; simpl.
    + destruct (json_body response) as [reason|json] eqn:J; simpl.
      * intros E. injection E as <-. split; [eauto|].
        right; right; left. exists response, reason. auto.
      * destruct (safeParse json) as [output|found] eqn:Pr; [discriminate|].
        intros E. injection E as <-. split; [eauto|].
        right; right; right. exists response, json, found. auto.
    + intros E. injection E as <-. split; [eauto|].
      right; left. exists response. auto.
Qed.

Lemma validated_not_failed (net : fetch_outcome) (index : PackagesIndex) :
  validated_from net index ->
  ~ (no_response net \/ response_not_ok net \/ body_not_json net
     \/ fails_validation net).
Proof.
  intros [response [json [output [-> [Ok [J [Pr _]]]]]]].
  intros [[reason E]|[[r [E Ok']]|[[r [reason [E J']]]|[r [j [found [E [J' Pr']]]]]]]].
  - discriminate.
  - injection E as <-. congruence.
  - injection E as <-. congruence.
  - injection E as <-. rewrite J in J'. injection J' as <-. congruence.
Qed.

(** C2, amended: awaiting [fetchPackagesIndex] (and [getPackagesIndex],
    which only logs and throws again) rejects exactly when the request
    ends without a response, the response is not ok, its body is not
    JSON, or the JSON fails [PackagesIndexSchema]; in every other case
    the result is the validated index. *)
Theorem fetchPackagesIndex_rejects_iff (net : fetch_outcome) :
  (rejects (await_fetchPackagesIndex url net)
   <-> no_response net \/ response_not_ok net \/ body_not_json net
       \/ fails_validation net)
  /\ (~ rejects (await_fetchPackagesIndex url net) ->
      exists index,
        await_fetchPackagesIndex url net = inr index
        /\ validated_from net index)
  /\ getPackagesIndex url net = await_fetchPackagesIndex url net.
Proof.
  unfold await_fetchPackagesIndex.
  split; [|split; [|apply getPackagesIndex_await]].
  - split.
    + intros [e E]. apply (fetch_and_validate_failure _ E).
    + intros Hf. destruct (fetch_and_validate url net) as [e|index] eqn:E.
      * exists e. reflexivity.
      * exfalso.
        apply (validated_not_failed (fetch_and_validate_success _ E)), Hf.
  - intros Hn. destruct (fetch_and_validate url net) as [e|index] eqn:E.
    + exfalso. apply Hn. exists e. reflexivity.
    + exists index. split; [reflexivity|].
      apply fetch_and_validate_success, E.
Qed.

End IndexFacts.

(** C2 as stated fails: when the request ends without any response the
    call rejects, yet no response is "not ok" and no JSON failed the
    schema. *)
Lemma fetchPackagesIndex_rejects_without_response :
  rejects (Packages.await_fetchPackagesIndex (H := SampleHost.host)
             SampleHost.url (Packages.FetchRejected (lit "fetch failed")))
  /\ ~ (response_not_ok (H := SampleHost.host)
          (Packages.FetchRejected (lit "fetch failed"))
        \/ fails_validation (H := SampleHost.host)
             (Packages.FetchRejected (lit "fetch failed"))).
Proof.
  split.
  - eexists. reflexivity.
  - intros [[response [E _]]|[response [json [found [E _]]]]]; discriminate.
Qed.

Lemma fetchPackagesIndex_rejects_iff_witness :
  ~ rejects (Packages.await_fetchPackagesIndex (H := SampleHost.host)
               SampleHost.url (SampleHost.serves SampleHost.small_index))
  /\ exists index,
       Packages.await_fetchPackagesIndex (H := SampleHost.host)
         SampleHost.url (SampleHost.serves SampleHost.small_index) = inr index
       /\ validated_from (SampleHost.serves SampleHost.small_index) index.
Proof.
  assert (N : ~ rejects (Packages.await_fetchPackagesIndex (H := SampleHost.host)
               SampleHost.url (SampleHost.serves SampleHost.small_index))).
  { intros [e E]. discriminate. }
  split; [exact N|].
  apply (fetchPackagesIndex_rejects_iff (H := SampleHost.host) SampleHost.url
           (SampleHost.serves SampleHost.small_index)).
  exact N.
Defined.

Section SetFacts.

Lemma Set_add_In (s : list jsstring) (x y : jsstring) :
  In y (Set_add s x) <-> In y s \/ y = x.
Proof.
  unfold Set_add. destruct (includes s x) eqn:E.
  - apply includes_In in E. split; [auto | intros [?| ->]; assumption].
  - rewrite in_app_iff. simpl. intuition congruence.
Qed.

Lemma Set_add_NoDup (s : list jsstring) (x : jsstring) :
  NoDup s -> NoDup (Set_add s x).
Proof.
  intros Hs. unfold Set_add. destruct (includes s x) eqn:E; [assumption|].
  apply NoDup_app; [assumption | repeat constructor; auto |].
  intros y Hy [<-|[]]. apply includes_In in Hy. congruence.
Qed.

Lemma fold_Set_add (l s : list jsstring) :
  NoDup s ->
  NoDup (fold_left Set_add l s)
  /\ forall y, In y (fold_left Set_add l s) <-> In y s \/ In y l.
Proof.
  revert s. induction l as [|x l IH]; intros s Hs; simpl.
  - split; [assumption | intros y; tauto].
  - destruct (IH (Set_add s x) (Set_add_NoDup x Hs)) as [N I].
    split; [exact N|].
    intros y. rewrite I, Set_add_In. intuition congruence.
Qed.

(** A set built from a list holds the values of the list, each once. *)
Lemma Set_from_spec (l : list jsstring) :
  NoDup (Set_from l) /\ forall y, In y (Set_from l) <-> In y l.
Proof.
  destruct (@fold_Set_add l []) as [N I]; [constructor|].
  split; [exact N|]. intros y. rewrite (I y). simpl. tauto.
Qed.

End SetFacts.

Section AccessorFacts.
Context {H : Host}.
Import Packages.
Variable url : jsstring.
Variable net : fetch_outcome.
Variable index : PackagesIndex.
Hypothesis fetched : getPackagesIndex url net = inr index.

Local Abbreviation versions_of := (versions_of index).

Lemma versions_of_In (packageName : jsstring) (pkg : Package) :
  In pkg (versions_of packageName)
  <-> In pkg (packages index) /\ name pkg = packageName.
Proof. unfold versions_of. rewrite filter_In, str_eqb_eq. tauto. Qed.

Lemma getPackageByName_unfold (packageName : jsstring) :
  getPackageByName url net packageName
  = inr (match versions_of packageName with
         | [] => None
         | _ :: _ =>
             nth_error (sort by_version_descending (versions_of packageName)) 0
         end).
Proof.
  unfold getPackageByName. rewrite fetched. simpl. fold (versions_of packageName).
  destruct (versions_of packageName); reflexivity.
Qed.

Lemma getPackageByName_In (packageName : jsstring) (pkg : Package) :
  getPackageByName url net packageName = inr (Some pkg) ->
  In pkg (packages index) /\ name pkg = packageName.
Proof.
  rewrite getPackageByName_unfold. intros E. injection E as E.
  apply versions_of_In.
  destruct (versions_of packageName) as [|x l] eqn:V; [discriminate|].
  rewrite <- V in E |- *. apply (nth_error_In _ 0) in E.
  apply sort_In in E. exact E.
Qed.

Lemma getPackageByNameAndVersion_In (name' version' : jsstring) (pkg : Package) :
  getPackageByNameAndVersion url net name' version' = inr (Some pkg) ->
  In pkg (packages index) /\ name pkg = name' /\ version pkg = version'.
Proof.
  unfold getPackageByNameAndVersion. rewrite fetched. simpl.
  intros E. injection E as E. apply find_some in E.
  destruct E as [Hin E]. apply andb_true_iff in E.
  rewrite !str_eqb_eq in E. tauto.
Qed.

Lemma getUniquePackageNames_spec :
  exists names,
    getUniquePackageNames url net = inr names
    /\ NoDup names
    /\ forall n, In n names <-> exists pkg, In pkg (packages index) /\ name pkg = n.
Proof.
  unfold getUniquePackageNames. rewrite fetched. simpl.
  eexists. split; [reflexivity|].
  destruct (Set_from_spec (map name (packages index))) as [N I].
  split; [exact N|].
  intros n. rewrite I, in_map_iff. split; intros [pkg [A B]]; exists pkg; auto.
Qed.

(** C5: [getPackageByName] returns null exactly when no package of the
    index has the name; otherwise it returns a package of the index with
    that name whose version no other entry of that name exceeds under
    [localeCompare] with the numeric option: the latest version. *)
Theorem getPackageByName_latest (packageName : jsstring) :
  ConsistentCompare H ->
  exists found,
    getPackageByName url net packageName = inr found
    /\ (found = None
        <-> forall pkg, In pkg (packages index) -> name pkg <> packageName)
    /\ (forall pkg, found = Some pkg ->
          In pkg (packages index) /\ name pkg = packageName
          /\ forall other,
               In other (packages index) -> name other = packageName ->
               (localeCompare (version other) (version pkg) <= 0)%Z).
Proof.
  intros C. rewrite getPackageByName_unfold.
  eexists. split; [reflexivity|].
  destruct (versions_of packageName) as [|x l] eqn:V.
  - split.
    + split; [|reflexivity]. intros _ pkg Hin Hn.
      assert (Hv : In pkg (versions_of packageName))
        by (apply versions_of_In; auto).
      rewrite V in Hv. destruct Hv.
    + discriminate.
  - rewrite <- V.
    assert (Hx : In x (versions_of packageName)) by (rewrite V; left; reflexivity).
    split.
    + split.
      * intros E. exfalso.
        pose proof (sort_length by_version_descending (versions_of packageName)) as L.
        destruct (sort by_version_descending (versions_of packageName));
          [rewrite V in L; discriminate | discriminate].
      * intros Hno. exfalso. apply versions_of_In in Hx.
        destruct Hx as [Hin Hn]. exact (Hno x Hin Hn).
    + intros pkg E.
      apply sort_first in E.
      * destruct E as [Hin Hmax]. apply versions_of_In in Hin.
        destruct Hin as [Hin Hn]. repeat split; try assumption.
        intros other Ho Hon. apply (Hmax other).
        apply versions_of_In. auto.
      * intros a b. unfold before, by_version_descending.
        destruct (localeCompare_total (version a) (version b)); auto.
      * intros a b c. unfold before, by_version_descending. intros A B.
        apply localeCompare_trans with (version b); assumption.
Qed.

End AccessorFacts.

Section SampleHostFacts.
Import SampleHost.

Lemma lex_le_total (a b : list N) : lex_le a b = true \/ lex_le b a = true.
Proof.
  revert b. induction a as [|x a IH]; intros [|y b]; simpl; auto.
  destruct (N.ltb_spec x y), (N.ltb_spec y x), (N.eqb_spec x y),
    (N.eqb_spec y x); simpl; auto; try lia.
Qed.

Lemma lex_le_trans (a b c : list N) :
  lex_le a b = true -> lex_le b c = true -> lex_le a c = true.
Proof.
  revert b c. induction a as [|x a IH]; intros [|y b] [|z c]; simpl; auto;
    try discriminate.
  destruct (N.ltb_spec x y), (N.ltb_spec y z), (N.ltb_spec x z),
    (N.eqb_spec x y), (N.eqb_spec y z), (N.eqb_spec x z);
    simpl; auto; try discriminate; try lia.
  apply IH.
Qed.

Lemma numeric_compare_le (a b : jsstring) :
  (numeric_compare a b <= 0)%Z <-> lex_le (chunks None a) (chunks None b) = true.
Proof.
  unfold numeric_compare.
  destruct (lex_le (chunks None a) (chunks None b));
    [destruct (lex_le (chunks None b) (chunks None a))|];
    split; intros; try reflexivity; try lia; discriminate.
Qed.

Lemma host_consistent : ConsistentCompare host.
Proof.
  split; simpl.
  - intros a b. rewrite !numeric_compare_le. apply lex_le_total.
  - intros a b c. rewrite !numeric_compare_le. apply lex_le_trans.
Qed.

End SampleHostFacts.

Lemma getPackageByName_latest_witness :
  Packages.getPackagesIndex (H := SampleHost.host) SampleHost.url
    (SampleHost.serves SampleHost.small_index)
  = inr SampleHost.small_index_served
  /\ ConsistentCompare SampleHost.host
  /\ exists found,
       Packages.getPackageByName (H := SampleHost.host) SampleHost.url
         (SampleHost.serves SampleHost.small_index) (lit "greek") = inr found
       /\ (found = None
           <-> forall pkg,
                 In pkg (packages SampleHost.small_index_served) ->
                 name pkg <> lit "greek")
       /\ (forall pkg, found = Some pkg ->
             In pkg (packages SampleHost.small_index_served)
             /\ name pkg = lit "greek"
             /\ forall other,
                  In other (packages SampleHost.small_index_served) ->
                  name other = lit "greek" ->
                  (@localeCompare SampleHost.host
                     (version other) (version pkg) <= 0)%Z).
Proof.
  split; [reflexivity|]. split; [exact host_consistent|].
  exact (@getPackageByName_latest SampleHost.host SampleHost.url
           (SampleHost.serves SampleHost.small_index)
           SampleHost.small_index_served eq_refl
           (lit "greek") host_consistent).
Defined.

Section DummyPackages.
Context {H : Host}.
Import Packages.
Variable url : jsstring.
Variable net : fetch_outcome.

(** C8: no package of the index [getPackagesIndex] returns is named
    "dummy-package", and so none that [getPackageByName],
    [getPackageByNameAndVersion] or [getUniquePackageNames] give; the
    packages are those of the validated index with exactly the dummy
    entries removed, in the same order, and [last_update] is the
    validated one. *)
Theorem getPackagesIndex_without_dummy (index : PackagesIndex) :
  getPackagesIndex url net = inr index ->
  Forall (fun pkg => name pkg <> lit "dummy-package") (packages index)
  /\ (exists response json output,
        net = FetchResponse response
        /\ json_body response = inr json
        /\ safeParse json = Success output
        /\ Selection (fun pkg => name pkg <> lit "dummy-package")
                     (packages output) (packages index)
        /\ last_update index = last_update output)
  /\ (forall packageName pkg,
        getPackageByName url net packageName = inr (Some pkg) ->
        name pkg <> lit "dummy-package")
  /\ (forall name' version' pkg,
        getPackageByNameAndVersion url net name' version' = inr (Some pkg) ->
        name pkg <> lit "dummy-package")
  /\ (forall names,
        getUniquePackageNames url net = inr names ->
        ~ In (lit "dummy-package") names).
Proof.
  intros F.
  assert (V : validated_from net index).
  { apply (fetch_and_validate_success url).
    rewrite getPackagesIndex_await in F. exact F. }
  destruct V as [response [json [output [N [Ok [J [Pr [Lu Pk]]]]]]]].
  assert (D : forall pkg, In pkg (packages index) ->
                          name pkg <> lit "dummy-package").
  { intros pkg Hin. rewrite Pk in Hin. apply filter_In in Hin.
    apply not_dummy_iff, Hin. }
  split; [apply Forall_forall, D|]. split; [|split; [|split]].
  - exists response, json, output. repeat split; try assumption.
    rewrite Pk. apply filter_Selection. intros pkg. apply not_dummy_iff.
  - intros packageName pkg E. apply D.
    eapply getPackageByName_In; eassumption.
  - intros name' version' pkg E. apply D.
    eapply getPackageByNameAndVersion_In; eassumption.
  - intros names E Hin.
    destruct (@getUniquePackageNames_spec _ url net index F)
      as [names' [E' [_ I]]].
    rewrite E in E'. injection E' as <-.
    apply I in Hin. destruct Hin as [pkg [Hin Hn]].
    exact (D pkg Hin Hn).
Qed.

End DummyPackages.

Lemma getPackagesIndex_without_dummy_witness :
  Packages.getPackagesIndex (H := SampleHost.host) SampleHost.url
    (SampleHost.serves SampleHost.small_index)
  = inr SampleHost.small_index_served
  /\ Forall (fun pkg => name pkg <> lit "dummy-package")
            (packages SampleHost.small_index_served).
Proof.
  split; [reflexivity|].
  apply (@getPackagesIndex_without_dummy SampleHost.host SampleHost.url
           (SampleHost.serves SampleHost.small_index)
           SampleHost.small_index_served eq_refl).
Defined.

(* ================================================================== *)
(** * The cache of the package index                                    *)
(* ================================================================== *)

Section CacheFacts.
Context {H : Host}.
Import Packages.
Variable url : jsstring.

Lemma call_after_start (st : module_state) (p : nat) :
  fetchPromise st = Some p -> snd (fetchPackagesIndex st) = st.
Proof.
  intros Fp. unfold fetchPackagesIndex. rewrite Fp.
  destruct (cachedPackagesIndex st); reflexivity.
Qed.

Lemma cache_invariant_call (st : module_state) :
  cache_invariant st -> cache_invariant (snd (fetchPackagesIndex st)).
Proof.
  intros [->|[status [Fp [Ps [Nr Ca]]]]].
  - right. exists Pending. simpl. auto.
  - right. exists status. rewrite (call_after_start _ Fp). auto.
Qed.

Lemma cache_invariant_settle (p : nat) (net : fetch_outcome)
  (st : module_state) :
  cache_invariant st -> cache_invariant (settle url p net st).
Proof.
  intros [->|[status [Fp [Ps [Nr Ca]]]]].
  - left. unfold settle. simpl. destruct p; reflexivity.
  - right. unfold settle. rewrite Ps.
    destruct p as [|p]; simpl.
    + destruct status.
      * destruct (fetch_and_validate url net) as [reason|result]; simpl.
        -- exists (Rejected reason). rewrite ?Ps. simpl. auto.
        -- exists (Fulfilled result). rewrite ?Ps. simpl. auto.
      * exists (Fulfilled value). auto.
      * exists (Rejected reason). auto.
    + exists status. destruct p; simpl; auto.
Qed.

Lemma cache_invariant_run (evs : list event) : cache_invariant (run url evs).
Proof.
  unfold run.
  assert (G : forall st, cache_invariant st ->
              cache_invariant (fold_left (fun st ev => step url ev st) evs st)).
  { induction evs as [|ev evs IH]; intros st Hst; simpl; [exact Hst|].
    apply IH. destruct ev as [|p net]; simpl.
    - apply cache_invariant_call, Hst.
    - apply cache_invariant_settle, Hst. }
  apply G. left. reflexivity.
Qed.

Lemma run_snoc (evs : list event) (ev : event) :
  run url (evs ++ [ev]) = step url ev (run url evs).
Proof. unfold run. rewrite fold_left_app. reflexivity. Qed.

(** The promise settles as the body of the asynchronous function ends
    on the answer to the one request: this is what every caller that
    awaits [fetchPackagesIndex] observes, and what the accessors are
    functions of. *)
Lemma settled_by_answer (evs : list event) (status : promise_state) :
  promises (run url evs) = [status] ->
  match status with
  | Pending => True
  | Fulfilled index =>
      exists net,
        In (Answer 0 net) evs /\ await_fetchPackagesIndex url net = inr index
  | Rejected reason =>
      exists net,
        In (Answer 0 net) evs /\ await_fetchPackagesIndex url net = inl reason
  end.
Proof.
  unfold await_fetchPackagesIndex.
  revert status. induction evs as [|ev evs IH] using rev_ind; intros status.
  - discriminate.
  - rewrite run_snoc.
    assert (Keep : promises (run url evs) = [status] ->
      match status with
      | Pending => True
      | Fulfilled index =>
          exists net, In (Answer 0 net) (evs ++ [ev])
                      /\ fetch_and_validate url net = inr index
      | Rejected reason =>
          exists net, In (Answer 0 net) (evs ++ [ev])
                      /\ fetch_and_validate url net = inl reason
      end).
    { intros E. specialize (IH status E).
      destruct status; [exact I| |]; destruct IH as [net [Hin Hf]];
        exists net; (split; [apply in_or_app; left; exact Hin | exact Hf]). }
    destruct (cache_invariant_run evs) as [E|[status0 [Fp [Ps [Nr Ca]]]]].
    + rewrite E. destruct ev as [|p net]; simpl.
      * intros S. injection S as <-. exact I.
      * unfold settle. simpl. destruct p; discriminate.
    + rewrite Ps in Keep. destruct ev as [|p net]; simpl.
      * rewrite (call_after_start _ Fp), Ps. exact Keep.
      * unfold settle. rewrite Ps.
        destruct p as [|p]; simpl;
          [|destruct p; simpl; rewrite ?Ps; exact Keep].
        destruct status0; try (rewrite ?Ps; exact Keep).
        destruct (fetch_and_validate url net) as [reason|result] eqn:F;
          simpl; rewrite ?Ps; simpl; intros S; injection S as <-;
          exists net; (split; [apply in_or_app; right; left; reflexivity
                              | exact F]).
Qed.

Lemma settled_step (st : module_state) (status : promise_state)
  (ev : event) :
  cache_invariant st -> promises st = [status] -> status <> Pending ->
  step url ev st = st.
Proof.
  intros [->|[status0 [Fp [Ps [Nr Ca]]]]] E Hs; [discriminate|].
  destruct ev as [|p net]; simpl.
  - apply (call_after_start _ Fp).
  - unfold settle. rewrite E. destruct p as [|[|p]]; simpl; try reflexivity.
    destruct status; [contradiction | reflexivity | reflexivity].
Qed.

Lemma settled_run (evs evs' : list event) (status : promise_state) :
  promises (run url evs) = [status] -> status <> Pending ->
  run url (evs ++ evs') = run url evs.
Proof.
  intros E Hs. induction evs' as [|ev evs' IH] using rev_ind.
  - rewrite app_nil_r. reflexivity.
  - rewrite app_assoc, run_snoc, IH.
    apply (settled_step ev (cache_invariant_run evs) E Hs).
Qed.

(** Before the first call nothing has happened. *)
Lemma not_called (evs : list event) :
  ~ In Call evs -> run url evs = initial.
Proof.
  induction evs as [|ev evs IH] using rev_ind; intros Hn; [reflexivity|].
  rewrite run_snoc, IH by (intros Hi; apply Hn, in_or_app; left; exact Hi).
  destruct ev as [|p net].
  - exfalso. apply Hn, in_or_app. right. left. reflexivity.
  - unfold step, settle. simpl. destruct p; reflexivity.
Qed.

Lemma called_or_not (evs : list event) : In Call evs \/ ~ In Call evs.
Proof.
  induction evs as [|ev evs [IH|IH]]; [right; intros [] | left; right; exact IH|].
  destruct ev as [|p net]; [left; left; reflexivity|].
  right. intros [E|Hi]; [discriminate | exact (IH Hi)].
Qed.

(** From the first call to the answer to its request the promise is
    pending. *)
Lemma pending_until_answer (evs : list event) :
  In Call evs -> (forall net, ~ In (Answer 0 net) evs) ->
  promises (run url evs) = [Pending].
Proof.
  induction evs as [|ev evs IH] using rev_ind; intros Hc Hn; [contradiction|].
  assert (Hn' : forall net, ~ In (Answer 0 net) evs).
  { intros net Hi. apply (Hn net), in_or_app. left. exact Hi. }
  rewrite run_snoc. destruct ev as [|p net].
  - destruct (cache_invariant_run evs) as [E|[status [Fp [Ps [Nr Ca]]]]].
    + rewrite E. reflexivity.
    + unfold step. rewrite (call_after_start _ Fp). apply IH; [|exact Hn'].
      destruct (called_or_not evs) as [Hi|Hi]; [exact Hi|].
      rewrite (not_called evs Hi) in Fp. discriminate.
  - assert (Hc' : In Call evs).
    { apply in_app_or in Hc. destruct Hc as [Hc|[Hc|[]]];
        [exact Hc | discriminate]. }
    specialize (IH Hc' Hn'). unfold step, settle. rewrite IH.
    destruct p as [|p].
    + exfalso. apply (Hn net), in_or_app. right. left. reflexivity.
    + destruct p; exact IH.
Qed.

(** The answer to the request ends the asynchronous function: on
    success it fills the cache and fulfils the promise, on failure it
    rejects the promise and leaves the cache empty. *)
Lemma answer_settles (evs : list event) (net : fetch_outcome) :
  promises (run url evs) = [Pending] ->
  run url (evs ++ [Answer 0 net])
  = match fetch_and_validate url net with
    | inr index =>
        {| cachedPackagesIndex := Some index; fetchPromise := Some 0;
           promises := [Fulfilled index]; network_requests := 1 |}
    | inl reason =>
        {| cachedPackagesIndex := None; fetchPromise := Some 0;
           promises := [Rejected reason]; network_requests := 1 |}
    end.
Proof.
  intros Ps. rewrite run_snoc. unfold step, settle. rewrite Ps.
  destruct (cache_invariant_run evs) as [E|[status [Fp [Ps' [Nr Ca]]]]].
  - rewrite E in Ps. discriminate.
  - rewrite Ps in Ps'. injection Ps' as <-.
    cbn [nth_error set_nth]. rewrite Fp, Nr, Ca.
    destruct (fetch_and_validate url net); reflexivity.
Qed.

(** C1: whatever calls and answers a build process has seen, at most
    one request for the index was started. Once it was started, a call
    starts no other and changes nothing: while the promise is pending
    the caller gets that promise, once it is fulfilled the caller gets
    the cached index, and once it is rejected the caller gets the same
    rejected promise, so the request is never tried again. The first
    call starts the request, and until its answer arrives every call
    gets the one pending promise. When the answer arrives the body of
    the asynchronous function ends: on success the promise is fulfilled
    with the validated index and the cache holds it, so every later
    call receives that index; on failure the promise is rejected with
    the error and the cache stays empty; either way no later call or
    answer changes anything. *)
Theorem fetchPackagesIndex_fetches_once (evs : list event) :
  network_requests (run url evs) <= 1
  /\ (forall p, fetchPromise (run url evs) = Some p ->
        snd (fetchPackagesIndex (run url evs)) = run url evs
        /\ exists status,
             nth_error (promises (run url evs)) p = Some status
             /\ fst (fetchPackagesIndex (run url evs))
                = match status with
                  | Pending => ReturnsPromise p
                  | Fulfilled index => ReturnsIndex index
                  | Rejected _ => ReturnsPromise p
                  end)
  /\ (fetchPromise (run url evs) = None ->
      network_requests (run url evs) = 0
      /\ network_requests (snd (fetchPackagesIndex (run url evs))) = 1)
  /\ (In Call evs -> (forall net, ~ In (Answer 0 net) evs) ->
      nth_error (promises (run url evs)) 0 = Some Pending
      /\ fetchPackagesIndex (run url evs) = (ReturnsPromise 0, run url evs))
  /\ (forall net later,
        nth_error (promises (run url evs)) 0 = Some Pending ->
        network_requests (run url (evs ++ Answer 0 net :: later)) = 1
        /\ match await_fetchPackagesIndex url net with
           | inr index =>
               cachedPackagesIndex (run url (evs ++ Answer 0 net :: later))
               = Some index
               /\ nth_error
                    (promises (run url (evs ++ Answer 0 net :: later))) 0
                  = Some (Fulfilled index)
               /\ fetchPackagesIndex (run url (evs ++ Answer 0 net :: later))
                  = (ReturnsIndex index,
                     run url (evs ++ Answer 0 net :: later))
           | inl reason =>
               cachedPackagesIndex (run url (evs ++ Answer 0 net :: later))
               = None
               /\ nth_error
                    (promises (run url (evs ++ Answer 0 net :: later))) 0
                  = Some (Rejected reason)
               /\ fetchPackagesIndex (run url (evs ++ Answer 0 net :: later))
                  = (ReturnsPromise 0,
                     run url (evs ++ Answer 0 net :: later))
           end).
Proof.
  split; [|split; [|split; [|split]]].
  - destruct (cache_invariant_run evs) as [E|[status [Fp [Ps [Nr Ca]]]]];
      [rewrite E; simpl|]; lia.
  - destruct (cache_invariant_run evs) as [E|[status [Fp [Ps [Nr Ca]]]]].
    + rewrite E. discriminate.
    + intros p Ep. rewrite Fp in Ep. injection Ep as <-.
      unfold fetchPackagesIndex. rewrite Ca, Fp, Ps.
      destruct status; simpl; eauto.
  - destruct (cache_invariant_run evs) as [E|[status [Fp [Ps [Nr Ca]]]]].
    + rewrite E. simpl. auto.
    + rewrite Fp. discriminate.
  - intros Hc Hn. pose proof (@pending_until_answer evs Hc Hn) as Ps.
    destruct (cache_invariant_run evs) as [E|[status [Fp [Ps' [Nr Ca]]]]].
    + rewrite E in Ps. discriminate.
    + rewrite Ps in Ps'. injection Ps' as <-.
      split; [rewrite Ps; reflexivity|].
      unfold fetchPackagesIndex. rewrite Ca, Fp. reflexivity.
  - intros net later Hp.
    assert (Ps : promises (run url evs) = [Pending]).
    { destruct (cache_invariant_run evs) as [E|[status [Fp [Ps [Nr Ca]]]]].
      - rewrite E in Hp. discriminate.
      - rewrite Ps in Hp. injection Hp as ->. exact Ps. }
    pose proof (@answer_settles evs net Ps) as A.
    assert (R : run url (evs ++ Answer 0 net :: later)
                = run url (evs ++ [Answer 0 net])).
    { change (Answer 0 net :: later) with ([Answer 0 net] ++ later).
      rewrite app_assoc.
      destruct (fetch_and_validate url net) as [reason|index].
      - apply settled_run with (status := Rejected reason);
          [rewrite A; reflexivity | discriminate].
      - apply settled_run with (status := Fulfilled index);
          [rewrite A; reflexivity | discriminate]. }
    rewrite R, A. unfold await_fetchPackagesIndex.
    destruct (fetch_and_validate url net) as [reason|index];
      (split; [reflexivity|]); split; [reflexivity| | reflexivity|];
      split; reflexivity.
Qed.

End CacheFacts.

Lemma fetchPackagesIndex_fetches_once_witness :
  nth_error
    (Packages.promises
       (Packages.run (H := SampleHost.host) SampleHost.url
          [Packages.Call; Packages.Call])) 0
  = Some Packages.Pending
  /\ Packages.await_fetchPackagesIndex (H := SampleHost.host) SampleHost.url
       (SampleHost.serves SampleHost.small_index)
     = inr SampleHost.small_index_served
  /\ Packages.network_requests
       (Packages.run (H := SampleHost.host) SampleHost.url
          ([Packages.Call; Packages.Call]
           ++ Packages.Answer 0 (SampleHost.serves SampleHost.small_index)
              :: [Packages.Call;
                  Packages.Answer 0 (Packages.FetchRejected (lit "fetch failed"));
                  Packages.Call])) = 1
  /\ Packages.fetchPackagesIndex
       (Packages.run (H := SampleHost.host) SampleHost.url
          ([Packages.Call; Packages.Call]
           ++ Packages.Answer 0 (SampleHost.serves SampleHost.small_index)
              :: [Packages.Call;
                  Packages.Answer 0 (Packages.FetchRejected (lit "fetch failed"));
                  Packages.Call]))
     = (Packages.ReturnsIndex SampleHost.small_index_served,
        Packages.run (H := SampleHost.host) SampleHost.url
          ([Packages.Call; Packages.Call]
           ++ Packages.Answer 0 (SampleHost.serves SampleHost.small_index)
              :: [Packages.Call;
                  Packages.Answer 0 (Packages.FetchRejected (lit "fetch failed"));
                  Packages.Call])).
Proof.
  split; [reflexivity|]. split; [reflexivity|].
  destruct (fetchPackagesIndex_fetches_once (H := SampleHost.host)
              SampleHost.url [Packages.Call; Packages.Call])
    as [_ [_ [_ [_ Settled]]]].
  destruct (Settled (SampleHost.serves SampleHost.small_index)
              [Packages.Call;
               Packages.Answer 0 (Packages.FetchRejected (lit "fetch failed"));
               Packages.Call] eq_refl) as [Requests Fulfilled].
  split; [exact Requests|].
  change (Packages.await_fetchPackagesIndex (H := SampleHost.host)
            SampleHost.url (SampleHost.serves SampleHost.small_index))
    with (@inr thrown PackagesIndex SampleHost.small_index_served)
    in Fulfilled.
  apply Fulfilled.
Defined.

(* ================================================================== *)
(** * The GitHub link                                                   *)
(* ================================================================== *)

Section GitHubFacts.
Import PackageRoute.

Lemma strip_prefix_spec (prefix s r : jsstring) :
  strip_prefix prefix s = Some r <-> s = prefix ++ r.
Proof.
  revert s. induction prefix as [|a prefix IH]; intros s; simpl.
  - split; [intros E; injection E; auto | intros ->; reflexivity].
  - destruct s as [|b s]; [split; discriminate|].
    destruct (N.eqb_spec a b) as [->|Hne].
    + rewrite IH. split; [intros ->; reflexivity | intros E; injection E; auto].
    + split; [discriminate | intros E; injection E; intros; congruence].
Qed.

Lemma span_non_slash_spec (s : jsstring) :
  s = fst (span_non_slash s) ++ snd (span_non_slash s)
  /\ ~ In slash (fst (span_non_slash s))
  /\ ends_component (snd (span_non_slash s)).
Proof.
  induction s as [|c s [E [Hn He]]]; simpl.
  - repeat split; [tauto | left; reflexivity].
  - destruct (N.eqb_spec c slash) as [->|Hne]; simpl.
    + repeat split; [tauto | right; eexists; reflexivity].
    + destruct (span_non_slash s) as [run rest]; simpl in *.
      repeat split; [congruence | intuition congruence | assumption].
Qed.

Lemma span_non_slash_app (a b : jsstring) :
  ~ In slash a ->
  span_non_slash (a ++ b)
  = (a ++ fst (span_non_slash b), snd (span_non_slash b)).
Proof.
  induction a as [|c a IH]; simpl; intros Hn.
  - destruct (span_non_slash b); reflexivity.
  - destruct (N.eqb_spec c slash) as [->|Hne]; [tauto|].
    rewrite IH by tauto. reflexivity.
Qed.

Lemma span_non_slash_ends (rest : jsstring) :
  ends_component rest -> span_non_slash rest = ([], rest).
Proof.
  intros [->|[rest' ->]]; reflexivity.
Qed.

(** A match at the start of [s] is a repository read there. *)
Lemma match_here_sound (s group : jsstring) :
  match_here s = Some group ->
  exists owner repo rest,
    repository_at s [] owner repo rest /\ ends_component rest
    /\ group = owner ++ slash :: repo.
Proof.
  unfold match_here.
  destruct (strip_prefix (lit "github.com/") s) as [s1|] eqn:P; [|discriminate].
  apply strip_prefix_spec in P.
  destruct (span_non_slash_spec s1) as [E1 [N1 C1]].
  destruct (span_non_slash s1) as [owner r1]; simpl in *.
  destruct owner as [|o owner]; [discriminate|].
  destruct r1 as [|c s2]; [discriminate|].
  destruct (span_non_slash_spec s2) as [E2 [N2 C2]].
  destruct (span_non_slash s2) as [repo rest]; simpl in *.
  destruct repo as [|r repo]; [discriminate|].
  intros G. injection G as <-.
  assert (c = slash) as ->.
  { destruct C1 as [C1|[rest' C1]]; [discriminate | congruence]. }
  exists (o :: owner), (r :: repo), rest.
  split; [|split; [assumption | reflexivity]].
  unfold repository_at, component.
  split; [|split; split; (discriminate || assumption)].
  change (s = lit "github.com/" ++ (o :: owner) ++ slash :: (r :: repo) ++ rest).
  rewrite P, E1, E2. reflexivity.
Qed.

(** A repository read at the start of [s] makes the expression match
    there; the group ends where the component of [repo] ends. *)
Lemma match_here_complete (s owner repo rest : jsstring) :
  repository_at s [] owner repo rest ->
  match_here s
  = Some (owner ++ slash :: repo ++ fst (span_non_slash rest)).
Proof.
  intros [E [[O1 O2] [R1 R2]]]. simpl app in E. unfold match_here.
  assert (P : strip_prefix (lit "github.com/") s
              = Some (owner ++ slash :: repo ++ rest))
    by (apply strip_prefix_spec; exact E).
  rewrite P.
  rewrite (@span_non_slash_app owner (slash :: repo ++ rest) O2).
  change (span_non_slash (slash :: repo ++ rest))
    with (@nil code_unit, slash :: repo ++ rest).
  cbn [fst snd]. rewrite app_nil_r.
  destruct owner as [|o owner]; [congruence|].
  rewrite (@span_non_slash_app repo rest R2).
  destruct repo as [|r repo]; [congruence|]. reflexivity.
Qed.

Lemma regexp_match_Some (s group : jsstring) :
  regexp_match s = Some group ->
  exists pre s',
    s = pre ++ s' /\ match_here s' = Some group
    /\ forall pre' s'',
         s = pre' ++ s'' -> List.length pre' < List.length pre ->
         match_here s'' = None.
Proof.
  induction s as [|c s IH]; simpl.
  - discriminate.
  - destruct (match_here (c :: s)) eqn:M.
    + intros E. injection E as ->. exists [], (c :: s). simpl.
      repeat split; [assumption | intros; lia].
    + intros E. destruct (IH E) as [pre [s' [Es [Ms Hb]]]].
      exists (c :: pre), s'. simpl. split; [congruence|]. split; [assumption|].
      intros [|c' pre'] s'' Ep Hl; simpl in *.
      * subst s''. exact M.
      * injection Ep as -> Ep. apply (Hb pre'); [assumption | lia].
Qed.

Lemma regexp_match_None (s : jsstring) :
  regexp_match s = None ->
  forall pre s', s = pre ++ s' -> match_here s' = None.
Proof.
  induction s as [|c s IH]; simpl.
  - intros _ pre s' E. symmetry in E. apply app_eq_nil in E.
    destruct E as [_ ->]. reflexivity.
  - destruct (match_here (c :: s)) eqn:M; [discriminate|].
    intros E [|c' pre] s' Ep; simpl in *.
    + subst s'. exact M.
    + injection Ep as -> Ep. apply (IH E pre). exact Ep.
Qed.

Lemma repository_at_suffix (s pre owner repo rest : jsstring) :
  repository_at s pre owner repo rest ->
  exists s', s = pre ++ s' /\ repository_at s' [] owner repo rest.
Proof.
  intros [E [O R]]. eexists. split; [exact E|].
  split; [reflexivity | split; assumption].
Qed.

Lemma app_same_length (A : Type) (a b c d : list A) :
  a ++ b = c ++ d -> List.length a = List.length c -> a = c /\ b = d.
Proof.
  revert c. induction a as [|x a IH]; intros [|y c]; simpl;
    try discriminate; [auto|].
  intros E L. injection E as -> E. injection L as L.
  destruct (IH _ E L) as [-> ->]. auto.
Qed.

(** C6: [getGitHubUrl] returns "https://github.com/" followed by the
    first "owner/repo" that stands right after "github.com/" in the
    input, owner and repo being two whole path components without a
    slash; it returns null exactly when the input has no
    "github.com/owner/repo" inside. *)
Theorem getGitHubUrl_first_repository (archiveUrl : jsstring) :
  (getGitHubUrl archiveUrl = None
   <-> forall pre owner repo rest,
         ~ repository_at archiveUrl pre owner repo rest)
  /\ (forall link,
        getGitHubUrl archiveUrl = Some link
        <-> exists pre owner repo rest,
              repository_at archiveUrl pre owner repo rest
              /\ ends_component rest
              /\ (forall pre' owner' repo' rest',
                    repository_at archiveUrl pre' owner' repo' rest' ->
                    List.length pre <= List.length pre')
              /\ link = lit "https://github.com/" ++ owner ++ slash :: repo).
Proof.
  assert (Found : forall group,
    regexp_match archiveUrl = Some group ->
    exists pre owner repo rest,
      repository_at archiveUrl pre owner repo rest
      /\ ends_component rest
      /\ (forall pre' owner' repo' rest',
            repository_at archiveUrl pre' owner' repo' rest' ->
            List.length pre <= List.length pre')
      /\ group = owner ++ slash :: repo).
  { intros group E.
    destruct (@regexp_match_Some archiveUrl group E) as [pre [s' [Es [M Hb]]]].
    destruct (@match_here_sound s' group M) as [owner [repo [rest [[E' [O R]] [C G]]]]].
    exists pre, owner, repo, rest.
    split; [split; [rewrite Es, E'; reflexivity | split; assumption]|].
    split; [assumption|]. split; [|assumption].
    intros pre' owner' repo' rest' Hr.
    destruct (repository_at_suffix Hr) as [s'' [Es'' Hr'']].
    destruct (Nat.le_gt_cases (List.length pre) (List.length pre'))
      as [L|L]; [exact L|].
    pose proof (match_here_complete Hr'') as M'.
    rewrite (Hb pre' s'' Es'' L) in M'. discriminate. }
  assert (Missing :
    regexp_match archiveUrl = None ->
    forall pre owner repo rest, ~ repository_at archiveUrl pre owner repo rest).
  { intros E pre owner repo rest Hr.
    destruct (repository_at_suffix Hr) as [s' [Es Hr']].
    pose proof (@regexp_match_None archiveUrl E pre s' Es) as M.
    rewrite (match_here_complete Hr') in M. discriminate. }
  unfold getGitHubUrl. split.
  - split.
    + destruct (regexp_match archiveUrl) eqn:E; [discriminate|].
      intros _. apply Missing. reflexivity.
    + intros Hno. destruct (regexp_match archiveUrl) as [group|] eqn:E;
        [|reflexivity].
      destruct (Found group eq_refl) as [pre [owner [repo [rest [Hr _]]]]].
      exfalso. exact (Hno _ _ _ _ Hr).
  - intros link. split.
    + destruct (regexp_match archiveUrl) as [group|] eqn:E; [|discriminate].
      intros L. injection L as <-.
      destruct (Found group eq_refl) as [pre [owner [repo [rest [Hr [C [F G]]]]]]].
      exists pre, owner, repo, rest. rewrite G. auto.
    + intros [pre [owner [repo [rest [Hr [C [F ->]]]]]]].
      destruct (regexp_match archiveUrl) as [group|] eqn:E.
      * destruct (@regexp_match_Some archiveUrl group E)
          as [pre0 [s0 [Es0 [M0 Hb0]]]].
        destruct (repository_at_suffix Hr) as [s' [Es Hr']].
        pose proof (match_here_complete Hr') as M.
        rewrite (span_non_slash_ends C), app_nil_r in M. simpl fst in M.
        destruct (@match_here_sound s0 group M0)
          as [owner0 [repo0 [rest0 [[E0 [O0 R0]] _]]]].
        assert (Hr0 : repository_at archiveUrl pre0 owner0 repo0 rest0).
        { split; [|split; assumption]. rewrite Es0, E0. reflexivity. }
        pose proof (F _ _ _ _ Hr0) as L1.
        destruct (Nat.le_gt_cases (List.length pre0) (List.length pre))
          as [L2|L2].
        -- assert (L : List.length pre = List.length pre0) by lia.
           rewrite Es in Es0.
           destruct (@app_same_length _ pre s' pre0 s0 Es0 L) as [_ <-].
           rewrite M in M0. injection M0 as <-. reflexivity.
        -- rewrite (Hb0 pre s' Es L2) in M. discriminate.
      * exfalso. exact (Missing eq_refl _ _ _ _ Hr).
Qed.

End GitHubFacts.

Lemma getGitHubUrl_first_repository_witness :
  PackageRoute.getGitHubUrl
    (lit "https://github.com/espanso/hub/releases/download/v1.0.0/greek-0.9.0.zip")
  = Some (lit "https://github.com/espanso/hub")
  /\ exists pre owner repo rest,
       repository_at
         (lit "https://github.com/espanso/hub/releases/download/v1.0.0/greek-0.9.0.zip")
         pre owner repo rest
       /\ ends_component rest
       /\ (forall pre' owner' repo' rest',
             repository_at
               (lit "https://github.com/espanso/hub/releases/download/v1.0.0/greek-0.9.0.zip")
               pre' owner' repo' rest' ->
             List.length pre <= List.length pre')
       /\ lit "https://github.com/espanso/hub"
          = lit "https://github.com/" ++ owner ++ PackageRoute.slash :: repo.
Proof.
  split; [reflexivity|].
  apply (getGitHubUrl_first_repository
           (lit "https://github.com/espanso/hub/releases/download/v1.0.0/greek-0.9.0.zip")).
  reflexivity.
Defined.

(* ================================================================== *)
(** * The package route                                                 *)
(* ================================================================== *)

Section LoaderFacts.
Context {H : Host}.
Import Packages.
Variable url : jsstring.
Variable net : fetch_outcome.

(** Without the index every accessor, and so every loader, rejects
    with what [getPackagesIndex] threw, which is never a response. *)
Lemma getPackagesIndex_throws (e : thrown) :
  getPackagesIndex url net = inl e ->
  forall body status, e <> HttpResponse body status.
Proof.
  rewrite getPackagesIndex_await. intros E body status ->.
  destruct (fetch_and_validate_failure _ _ E) as [[[m M]|[r R]] _];
    discriminate.
Qed.

Lemma loaders_without_index (e : thrown) :
  getPackagesIndex url net = inl e ->
  forall params,
    PackageRoute.lookup url net params = inl e
    /\ PackageRoute.loader url net params = inl e
    /\ getPackageByName url net (PackageRoute.packageName params) = inl e
    /\ PackageRouteLatest.loader url net (PackageRoute.packageName params)
       = inl e.
Proof.
  intros F params.
  assert (L : PackageRoute.lookup url net params = inl e).
  { unfold PackageRoute.lookup, getPackageByNameAndVersion, getPackageByName.
    rewrite F. destruct (PackageRoute.version params) as [[|c v]|]; reflexivity. }
  assert (G : getPackageByName url net (PackageRoute.packageName params)
              = inl e).
  { unfold getPackageByName. rewrite F. reflexivity. }
  unfold PackageRoute.loader, PackageRouteLatest.loader. rewrite L, G.
  auto.
Qed.

Lemma loaders_with_index (index : PackagesIndex) :
  getPackagesIndex url net = inr index ->
  forall params,
    exists found latest versions' isLatest',
      PackageRoute.lookup url net params = inr found
      /\ PackageRoute.loader url net params
         = match found with
           | None =>
               inl (HttpResponse
                      (if truthy_opt (PackageRoute.version params)
                       then lit "Package version not found"
                       else lit "Package not found") 404)
           | Some p =>
               inr {| PackageRoute.package := p;
                      PackageRoute.versions := versions';
                      PackageRoute.isLatest := isLatest' |}
           end
      /\ getPackageByName url net (PackageRoute.packageName params) = inr latest
      /\ PackageRouteLatest.loader url net (PackageRoute.packageName params)
         = match latest with
           | None => inl (HttpResponse (lit "Package not found") 404)
           | Some p => inr {| PackageRouteLatest.package := p |}
           end.
Proof.
  intros F params.
  assert (L : exists found, PackageRoute.lookup url net params = inr found).
  { unfold PackageRoute.lookup.
    destruct (PackageRoute.version params) as [[|c v]|].
    - rewrite (@getPackageByName_unfold _ url net index F). eexists; reflexivity.
    - unfold getPackageByNameAndVersion. rewrite F. eexists; reflexivity.
    - rewrite (@getPackageByName_unfold _ url net index F). eexists; reflexivity. }
  destruct L as [found L].
  assert (V : exists versions',
             getVersionsForPackage url net (PackageRoute.packageName params)
             = inr versions').
  { unfold getVersionsForPackage. rewrite F. simpl. eauto. }
  destruct V as [versions' V].
  eexists found, _, versions', _.
  split; [exact L|].
  unfold PackageRoute.loader, PackageRouteLatest.loader.
  rewrite L, V, (@getPackageByName_unfold _ url net index F). simpl.
  split; [|split; [reflexivity|]].
  - destruct found; reflexivity.
  - destruct (match versions_of index (PackageRoute.packageName params) with
              | [] => None
              | _ :: _ => _
              end); reflexivity.
Qed.

(** C10: the loader of the package route throws a response with status
    404 exactly when the lookup returns null, the lookup being
    [getPackageByName] for the latest route and
    [getPackageByNameAndVersion] when a version is given; when the
    lookup finds a package, the loader's result holds that package as
    it was found. The same holds of the loader of the first revision,
    whose lookup is [getPackageByName]. *)
Theorem loader_404_iff_lookup_null (params : PackageRoute.Params) :
  ((exists body, PackageRoute.loader url net params
                 = inl (HttpResponse body 404))
   <-> PackageRoute.lookup url net params = inr None)
  /\ (forall p, PackageRoute.lookup url net params = inr (Some p) ->
        exists data, PackageRoute.loader url net params = inr data
                     /\ PackageRoute.package data = p)
  /\ (PackageRoute.version params = None ->
      PackageRoute.lookup url net params
      = getPackageByName url net (PackageRoute.packageName params))
  /\ (forall version', PackageRoute.version params = Some version' ->
        version' <> [] ->
        PackageRoute.lookup url net params
        = getPackageByNameAndVersion url net
            (PackageRoute.packageName params) version')
  /\ ((exists body, PackageRouteLatest.loader url net
                      (PackageRoute.packageName params)
                    = inl (HttpResponse body 404))
      <-> getPackageByName url net (PackageRoute.packageName params) = inr None)
  /\ (forall p,
        getPackageByName url net (PackageRoute.packageName params)
        = inr (Some p) ->
        exists data,
          PackageRouteLatest.loader url net (PackageRoute.packageName params)
          = inr data
          /\ PackageRouteLatest.package data = p).
Proof.
  assert (Lk1 : PackageRoute.version params = None ->
      PackageRoute.lookup url net params
      = getPackageByName url net (PackageRoute.packageName params)).
  { unfold PackageRoute.lookup. intros ->. reflexivity. }
  assert (Lk2 : forall version', PackageRoute.version params = Some version' ->
        version' <> [] ->
        PackageRoute.lookup url net params
        = getPackageByNameAndVersion url net
            (PackageRoute.packageName params) version').
  { unfold PackageRoute.lookup. intros version' -> Hne.
    destruct version'; [contradiction | reflexivity]. }
  assert (Main :
    ((exists body, PackageRoute.loader url net params
                   = inl (HttpResponse body 404))
     <-> PackageRoute.lookup url net params = inr None)
    /\ (forall p, PackageRoute.lookup url net params = inr (Some p) ->
          exists data, PackageRoute.loader url net params = inr data
                       /\ PackageRoute.package data = p)
    /\ ((exists body, PackageRouteLatest.loader url net
                        (PackageRoute.packageName params)
                      = inl (HttpResponse body 404))
        <-> getPackageByName url net (PackageRoute.packageName params)
            = inr None)
    /\ (forall p,
          getPackageByName url net (PackageRoute.packageName params)
          = inr (Some p) ->
          exists data,
            PackageRouteLatest.loader url net (PackageRoute.packageName params)
            = inr data
            /\ PackageRouteLatest.package data = p)).
  { destruct (getPackagesIndex url net) as [e|index] eqn:F.
    - destruct (loaders_without_index F params) as [L [Ld [G Ld0]]].
      pose proof (getPackagesIndex_throws F) as Ne.
      rewrite L, Ld, G, Ld0.
      split; [|split; [|split]].
      + split; [intros [body E]; injection E as ->; exfalso;
                eapply Ne; reflexivity | discriminate].
      + discriminate.
      + split; [intros [body E]; injection E as ->; exfalso;
                eapply Ne; reflexivity | discriminate].
      + discriminate.
    - destruct (loaders_with_index F params)
        as [found [latest [versions' [isLatest' [L [Ld [G Ld0]]]]]]].
      rewrite L, Ld, G, Ld0.
      split; [|split; [|split]].
      + destruct found; split; try discriminate; eauto.
        intros [body E]; discriminate.
      + intros p E. injection E as ->. eauto.
      + destruct latest; split; try discriminate; eauto.
        intros [body E]; discriminate.
      + intros p E. injection E as ->. eauto. }
  destruct Main as [A [B [C D]]].
  split; [exact A|]. split; [exact B|]. split; [exact Lk1|].
  split; [exact Lk2|]. split; [exact C | exact D].
Qed.

End LoaderFacts.

Lemma loader_404_iff_lookup_null_witness :
  PackageRoute.lookup (H := SampleHost.host) SampleHost.url
    (SampleHost.serves SampleHost.small_index)
    {| PackageRoute.packageName := lit "greek";
       PackageRoute.version := Some (lit "1.0.0") |}
  = inr None
  /\ exists body,
       PackageRoute.loader (H := SampleHost.host) SampleHost.url
         (SampleHost.serves SampleHost.small_index)
         {| PackageRoute.packageName := lit "greek";
            PackageRoute.version := Some (lit "1.0.0") |}
       = inl (HttpResponse body 404).
Proof.
  split; [reflexivity|].
  apply (loader_404_iff_lookup_null (H := SampleHost.host) SampleHost.url
           (SampleHost.serves SampleHost.small_index)
           {| PackageRoute.packageName := lit "greek";
              PackageRoute.version := Some (lit "1.0.0") |}).
  reflexivity.
Defined.

(* ================================================================== *)
(** * The paths to prerender                                            *)
(* ================================================================== *)

Section PrerenderFacts.
Context {H : Host}.
Import Packages.
Variable url : jsstring.
Variable net : fetch_outcome.
Variable index : PackagesIndex.
Hypothesis fetched : getPackagesIndex url net = inr index.

(** The revision with versioned pages lists the home page, one page
    for each package name, each once, and one page for each entry of
    the index, and nothing else. *)
Lemma prerender_covers_index :
  exists packageNames,
    NoDup packageNames
    /\ (forall n, In n packageNames
                  <-> exists pkg, In pkg (packages index) /\ name pkg = n)
    /\ RouterConfig.prerender url net
       = inr (lit "/" :: map RouterConfig.package_path packageNames
                ++ map version_path (packages index)).
Proof.
  destruct (@getUniquePackageNames_spec _ url net index fetched)
    as [names [E [N I]]].
  exists names. split; [exact N|]. split; [exact I|].
  unfold RouterConfig.prerender, getAllPackageVersionPaths.
  rewrite E, fetched. reflexivity.
Qed.

Lemma prerender_has_every_page (pkg : Package) :
  In pkg (packages index) ->
  exists paths,
    RouterConfig.prerender url net = inr paths
    /\ In (lit "/") paths
    /\ In (RouterConfig.package_path (name pkg)) paths
    /\ In (version_path pkg) paths.
Proof.
  intros Hin. destruct prerender_covers_index as [names [_ [I E]]].
  eexists. split; [exact E|]. split; [left; reflexivity|].
  split; right; apply in_or_app.
  - left. apply in_map, I. exists pkg. auto.
  - right. apply in_map, Hin.
Qed.

End PrerenderFacts.

(** C7, on the revision that slices: with four packages in the index,
    [prerender] returns the pages of the first three only; the page of
    the fourth package and the page of its version are missing, while
    the revision without [slice] lists both. *)
Theorem prerender_sliced_misses_fourth_package :
  RouterConfig.prerender_sliced (H := SampleHost.host) SampleHost.url
    (SampleHost.serves SampleHost.four_packages)
  = inr [ lit "/"; lit "/search";
          lit "/accents"; lit "/basic-emojis"; lit "/cargo";
          lit "/accents/v/1.0.0"; lit "/basic-emojis/v/1.0.0";
          lit "/cargo/v/1.0.0" ]
  /\ RouterConfig.prerender (H := SampleHost.host) SampleHost.url
       (SampleHost.serves SampleHost.four_packages)
     = inr [ lit "/";
             lit "/accents"; lit "/basic-emojis"; lit "/cargo"; lit "/dates";
             lit "/accents/v/1.0.0"; lit "/basic-emojis/v/1.0.0";
             lit "/cargo/v/1.0.0"; lit "/dates/v/1.0.0" ].
Proof. split; reflexivity. Qed.

(* ================================================================== *)
(** * More on the accessors                                             *)
(* ================================================================== *)

Section MoreListFacts.

Lemma filter_absorb (A : Type) (f g : A -> bool) (l : list A) :
  (forall y, f y = true -> g y = true) ->
  filter f (filter g l) = filter f l.
Proof.
  intros Hfg. induction l as [|x l IH]; simpl; [reflexivity|].
  destruct (g x) eqn:G; simpl.
  - rewrite IH. reflexivity.
  - destruct (f x) eqn:F; [|exact IH].
    apply Hfg in F. congruence.
Qed.

Lemma filter_both (A : Type) (f g : A -> bool) (l : list A) :
  filter f (filter g l) = filter (fun y => g y && f y) l.
Proof.
  induction l as [|x l IH]; simpl; [reflexivity|].
  destruct (g x); simpl; [|exact IH].
  destruct (f x); rewrite IH; reflexivity.
Qed.

Lemma includes_app (s t : list jsstring) (y : jsstring) :
  includes (s ++ t) y = includes s y || includes t y.
Proof. unfold includes. apply existsb_app. Qed.

Lemma fold_Set_add_first (l s : list jsstring) :
  fold_left Set_add l s
  = s ++ filter (fun y => negb (includes s y)) (first_occurrences l).
Proof.
  revert s. induction l as [|x l IH]; intros s; simpl.
  - rewrite app_nil_r. reflexivity.
  - rewrite IH. unfold Set_add. destruct (includes s x) eqn:E; simpl.
    + f_equal. symmetry. apply filter_absorb.
      intros y Hy. apply negb_true_iff in Hy. apply negb_true_iff.
      apply str_eqb_neq. intros ->. congruence.
    + rewrite <- app_assoc. simpl. f_equal. f_equal.
      rewrite filter_both. apply filter_ext. intros y.
      rewrite includes_app. unfold includes at 2. simpl.
      rewrite orb_false_r, negb_orb, andb_comm. reflexivity.
Qed.

Lemma Set_from_first_occurrences (l : list jsstring) :
  Set_from l = first_occurrences l.
Proof.
  unfold Set_from. rewrite fold_Set_add_first. simpl.
  induction (first_occurrences l) as [|x f IH]; simpl; congruence.
Qed.

Lemma StronglySorted_remove (A : Type) (R : A -> A -> Prop)
  (a : list A) (x : A) (b : list A) :
  StronglySorted R (a ++ x :: b) -> StronglySorted R (a ++ b).
Proof.
  induction a as [|y a IH]; simpl; intros Hs.
  - inversion Hs; assumption.
  - inversion Hs as [|? ? Hs' Hall]; subst. constructor; [apply IH, Hs'|].
    rewrite Forall_app in Hall |- *. destruct Hall as [Ha Hb].
    split; [exact Ha | inversion Hb; assumption].
Qed.

Lemma fold_Set_add_sorted (R : jsstring -> jsstring -> Prop)
  (l s : list jsstring) :
  StronglySorted R (s ++ l) -> StronglySorted R (fold_left Set_add l s).
Proof.
  revert s. induction l as [|x l IH]; intros s Hs; simpl.
  - rewrite app_nil_r in Hs. exact Hs.
  - apply IH. unfold Set_add. destruct (includes s x).
    + apply StronglySorted_remove with x. exact Hs.
    + rewrite <- app_assoc. exact Hs.
Qed.

Lemma Set_from_sorted (R : jsstring -> jsstring -> Prop) (l : list jsstring) :
  StronglySorted R l -> StronglySorted R (Set_from l).
Proof. intros Hs. apply fold_Set_add_sorted. exact Hs. Qed.

Lemma fold_Set_add_head (l s : list jsstring) (x : jsstring) :
  nth_error (fold_left Set_add l (x :: s)) 0 = Some x.
Proof.
  revert s. induction l as [|y l IH]; intros s; simpl; [reflexivity|].
  unfold Set_add. destruct (includes (x :: s) y); apply IH.
Qed.

Lemma Set_from_head (l : list jsstring) :
  nth_error (Set_from l) 0 = nth_error l 0.
Proof.
  destruct l as [|x l]; [reflexivity|].
  unfold Set_from. simpl fold_left. unfold Set_add at 2. simpl includes.
  apply (fold_Set_add_head l [] x).
Qed.

Lemma sort_insert_map (A B : Type) (f : A -> B) (cmp : B -> B -> Z)
  (x : A) (l : list A) :
  map f (sort_insert (fun a b => cmp (f a) (f b)) x l)
  = sort_insert cmp (f x) (map f l).
Proof.
  induction l as [|y l IH]; simpl; [reflexivity|].
  destruct (Z.leb (cmp (f x) (f y)) 0); simpl; [reflexivity|].
  rewrite IH. reflexivity.
Qed.

Lemma sort_map (A B : Type) (f : A -> B) (cmp : B -> B -> Z) (l : list A) :
  map f (sort (fun a b => cmp (f a) (f b)) l) = sort cmp (map f l).
Proof.
  induction l as [|x l IH]; simpl; [reflexivity|].
  rewrite sort_insert_map, IH. reflexivity.
Qed.

Lemma find_split (A : Type) (f : A -> bool) (l : list A) (x : A) :
  List.find f l = Some x ->
  exists l1 l2,
    l = l1 ++ x :: l2 /\ f x = true /\ forall y, In y l1 -> f y = false.
Proof.
  induction l as [|a l IH]; simpl; [discriminate|].
  destruct (f a) eqn:F.
  - intros E. injection E as <-. exists [], l. simpl.
    split; [reflexivity|]. split; [exact F | intros y []].
  - intros E. destruct (IH E) as [l1 [l2 [-> [Fx Hb]]]].
    exists (a :: l1), l2. simpl. split; [reflexivity|]. split; [exact Fx|].
    intros y [<-|Hy]; auto.
Qed.

Lemma find_filter (A : Type) (f g : A -> bool) (l : list A) :
  List.find f (filter g l) = List.find (fun y => g y && f y) l.
Proof.
  induction l as [|a l IH]; simpl; [reflexivity|].
  destruct (g a); simpl; [|exact IH].
  destruct (f a); [reflexivity | exact IH].
Qed.

End MoreListFacts.

Section MoreAccessorFacts.
Context {H : Host}.
Import Packages.
Variable url : jsstring.
Variable net : fetch_outcome.
Variable index : PackagesIndex.
Hypothesis fetched : getPackagesIndex url net = inr index.

Lemma getVersionsForPackage_unfold (packageName : jsstring) :
  getVersionsForPackage url net packageName
  = inr (versions_list index packageName).
Proof. unfold getVersionsForPackage. rewrite fetched. reflexivity. Qed.

Lemma versions_list_In (packageName v : jsstring) :
  In v (versions_list index packageName)
  <-> exists pkg,
        In pkg (packages index) /\ name pkg = packageName /\ version pkg = v.
Proof.
  unfold versions_list.
  destruct (Set_from_spec
              (sort (fun a b => localeCompare b a)
                    (map version (versions_of index packageName)))) as [_ I].
  rewrite I, sort_In, in_map_iff. split.
  - intros [pkg [E Hin]]. apply versions_of_In in Hin. exists pkg. tauto.
  - intros [pkg [Hin [Hn Hv]]]. exists pkg. split; [exact Hv|].
    apply versions_of_In. auto.
Qed.

(** X1: [getUniquePackageNames] gives every package name of the index
    exactly once, in the order in which the names first occur. *)
Theorem getUniquePackageNames_first_occurrences :
  exists names,
    getUniquePackageNames url net = inr names
    /\ names = first_occurrences (map name (packages index))
    /\ NoDup names
    /\ forall n,
         In n names <-> exists pkg, In pkg (packages index) /\ name pkg = n.
Proof.
  destruct (@getUniquePackageNames_spec _ url net index fetched)
    as [names [E [N I]]].
  exists names. split; [exact E|]. split; [|split; assumption].
  unfold getUniquePackageNames in E. rewrite fetched in E. simpl in E.
  injection E as <-. apply Set_from_first_occurrences.
Qed.

(** X2: [getPackageByNameAndVersion] returns null exactly when no entry
    of the index has both the name and the version; otherwise it
    returns the first entry of the index that has both. *)
Theorem getPackageByNameAndVersion_first_entry (name' version' : jsstring) :
  exists found,
    getPackageByNameAndVersion url net name' version' = inr found
    /\ (found = None
        <-> forall pkg, In pkg (packages index) ->
                        ~ (name pkg = name' /\ version pkg = version'))
    /\ (forall pkg, found = Some pkg ->
          name pkg = name' /\ version pkg = version'
          /\ exists earlier later,
               packages index = earlier ++ pkg :: later
               /\ forall other, In other earlier ->
                    ~ (name other = name' /\ version other = version')).
Proof.
  unfold getPackageByNameAndVersion. rewrite fetched. simpl. unfold find.
  set (f := fun p => str_eqb (name p) name' && str_eqb (version p) version').
  assert (F : forall p, f p = true <-> name p = name' /\ version p = version').
  { intros p. unfold f. rewrite andb_true_iff, !str_eqb_eq. tauto. }
  eexists. split; [reflexivity|].
  destruct (List.find f (packages index)) as [pkg|] eqn:E.
  - split; [split; [discriminate|]|].
    + intros Hno. exfalso. apply find_some in E. destruct E as [Hin Hf].
      apply (Hno pkg Hin), F, Hf.
    + intros p Ep. injection Ep as <-.
      destruct (find_split _ _ E) as [l1 [l2 [El [Fx Hb]]]].
      apply F in Fx. destruct Fx as [Hn Hv]. split; [exact Hn|].
      split; [exact Hv|]. exists l1, l2. split; [exact El|].
      intros other Ho Hboth. apply F in Hboth. rewrite (Hb other Ho) in Hboth.
      discriminate.
  - split; [split; [|reflexivity]|discriminate].
    intros _ pkg Hin Hboth. apply F in Hboth.
    rewrite (find_none _ _ E pkg Hin) in Hboth. discriminate.
Qed.

Lemma versions_list_head (packageName : jsstring) (pkg : Package) :
  getPackageByName url net packageName = inr (Some pkg) ->
  nth_error (versions_list index packageName) 0 = Some (version pkg).
Proof.
  rewrite (@getPackageByName_unfold _ url net index fetched).
  intros E. injection E as E.
  unfold versions_list. rewrite Set_from_head.
  rewrite <- (sort_map version (fun a b => localeCompare b a)).
  destruct (versions_of index packageName) as [|x l] eqn:V; [discriminate|].
  change (fun a b : Package => localeCompare (version b) (version a))
    with by_version_descending.
  destruct (sort by_version_descending (x :: l)) as [|y s];
    [discriminate|].
  simpl in E |- *. congruence.
Qed.

(** X4: when [getPackageByName] finds a package, its version is the
    first of the versions [getVersionsForPackage] lists for the name. *)
Theorem getVersionsForPackage_starts_with_latest
  (packageName : jsstring) (pkg : Package) :
  getPackageByName url net packageName = inr (Some pkg) ->
  exists versions,
    getVersionsForPackage url net packageName = inr versions
    /\ nth_error versions 0 = Some (version pkg).
Proof.
  intros E. rewrite getVersionsForPackage_unfold.
  eexists. split; [reflexivity|]. apply versions_list_head, E.
Qed.

Hypothesis consistent : ConsistentCompare H.

(** X3: [getVersionsForPackage] lists the versions of the entries that
    have the name, each version once, latest first; the list is empty
    exactly when the index has no entry of that name. *)
Theorem getVersionsForPackage_distinct_latest_first (packageName : jsstring) :
  exists versions,
    getVersionsForPackage url net packageName = inr versions
    /\ NoDup versions
    /\ (forall v,
          In v versions
          <-> exists pkg,
                In pkg (packages index)
                /\ name pkg = packageName /\ version pkg = v)
    /\ StronglySorted latest_first versions
    /\ (versions = []
        <-> forall pkg, In pkg (packages index) -> name pkg <> packageName).
Proof.
  rewrite getVersionsForPackage_unfold. eexists. split; [reflexivity|].
  split; [|split; [|split]].
  - unfold versions_list. apply Set_from_spec.
  - apply versions_list_In.
  - unfold versions_list. apply Set_from_sorted.
    apply (@sort_sorted jsstring (fun a b : jsstring => localeCompare b a)).
    + intros a b. unfold before.
      destruct (localeCompare_total a b); auto.
    + intros a b c. unfold before. intros A B.
      apply localeCompare_trans with b; assumption.
  - split.
    + intros E pkg Hin Hn.
      assert (Hv : In (version pkg) (versions_list index packageName)).
      { apply versions_list_In. exists pkg. auto. }
      rewrite E in Hv. destruct Hv.
    + intros Hno. destruct (versions_list index packageName) as [|v l] eqn:E;
        [reflexivity|].
      assert (Hv : In v (versions_list index packageName))
        by (rewrite E; left; reflexivity).
      apply versions_list_In in Hv. destruct Hv as [pkg [Hin [Hn _]]].
      exfalso. exact (Hno pkg Hin Hn).
Qed.

End MoreAccessorFacts.

(* ================================================================== *)
(** * More on the package route                                         *)
(* ================================================================== *)

Section MoreLoaderFacts.
Context {H : Host}.
Import Packages.
Variable url : jsstring.
Variable net : fetch_outcome.
Variable index : PackagesIndex.
Hypothesis fetched : getPackagesIndex url net = inr index.

Lemma lookup_unfold (params : PackageRoute.Params) :
  PackageRoute.lookup url net params
  = inr (match PackageRoute.version params with
         | Some ((_ :: _) as version') =>
             List.find
               (fun p => str_eqb (name p) (PackageRoute.packageName params)
                         && str_eqb (version p) version')
               (packages index)
         | _ =>
             match versions_of index (PackageRoute.packageName params) with
             | [] => None
             | _ :: _ =>
                 nth_error
                   (sort by_version_descending
                      (versions_of index (PackageRoute.packageName params))) 0
             end
         end).
Proof.
  unfold PackageRoute.lookup.
  destruct (PackageRoute.version params) as [[|c v]|].
  - apply (@getPackageByName_unfold _ url net index fetched).
  - unfold getPackageByNameAndVersion. rewrite fetched. reflexivity.
  - apply (@getPackageByName_unfold _ url net index fetched).
Qed.

Lemma lookup_found (params : PackageRoute.Params) (p : Package) :
  PackageRoute.lookup url net params = inr (Some p) ->
  In p (packages index) /\ name p = PackageRoute.packageName params.
Proof.
  unfold PackageRoute.lookup.
  destruct (PackageRoute.version params) as [[|c v]|]; intros E.
  - eapply getPackageByName_In; eassumption.
  - destruct (@getPackageByNameAndVersion_In _ url net index fetched _ _ _ E)
      as [A [B _]]. auto.
  - eapply getPackageByName_In; eassumption.
Qed.

Lemma loader_unfold (params : PackageRoute.Params) (p : Package) :
  PackageRoute.lookup url net params = inr (Some p) ->
  PackageRoute.loader url net params
  = inr {| PackageRoute.package := p;
           PackageRoute.versions :=
             versions_list index (PackageRoute.packageName params);
           PackageRoute.isLatest :=
             negb (truthy_opt (PackageRoute.version params))
             || match nth_error
                        (versions_list index (PackageRoute.packageName params)) 0,
                      PackageRoute.version params with
                | Some latest, Some version' => str_eqb latest version'
                | _, _ => false
                end |}.
Proof.
  intros L. unfold PackageRoute.loader. rewrite L. simpl.
  rewrite (@getVersionsForPackage_unfold _ url net index fetched).
  reflexivity.
Qed.

Lemma loader_succeeds (params : PackageRoute.Params)
  (data : PackageRoute.LoaderData) :
  PackageRoute.loader url net params = inr data ->
  PackageRoute.lookup url net params = inr (Some (PackageRoute.package data)).
Proof.
  intros E. destruct (PackageRoute.lookup url net params) as [e|[p|]] eqn:L.
  - unfold PackageRoute.loader in E. rewrite L in E. discriminate.
  - rewrite (loader_unfold _ L) in E. injection E as <-. reflexivity.
  - unfold PackageRoute.loader in E. rewrite L in E. discriminate.
Qed.

Lemma known_name_found (packageName : jsstring) :
  (exists pkg, In pkg (packages index) /\ name pkg = packageName) ->
  exists latest,
    getPackageByName url net packageName = inr (Some latest).
Proof.
  intros [pkg [Hin Hn]].
  rewrite (@getPackageByName_unfold _ url net index fetched).
  assert (Hv : In pkg (versions_of index packageName))
    by (apply versions_of_In; auto).
  pose proof (sort_length by_version_descending
                (versions_of index packageName)) as L.
  destruct (versions_of index packageName) as [|x l]; [destruct Hv|].
  destruct (sort by_version_descending (x :: l)) as [|y s];
    [discriminate|].
  exists y. reflexivity.
Qed.

(** The head of the sorted versions is the first entry that carries
    its version. *)
Lemma sort_first_same_version (l : list Package) :
  ConsistentCompare H ->
  forall x,
    nth_error (sort by_version_descending l) 0 = Some x ->
    List.find (fun p => str_eqb (version p) (version x)) l = Some x.
Proof.
  intros C. induction l as [|a l IH]; intros x; simpl.
  - discriminate.
  - destruct (sort by_version_descending l) as [|h s] eqn:S; simpl.
    + intros E. injection E as <-. rewrite str_eqb_refl. reflexivity.
    + destruct (Z.leb (by_version_descending a h) 0) eqn:Le; simpl.
      * intros E. injection E as <-. rewrite str_eqb_refl. reflexivity.
      * intros E. injection E as <-.
        apply Z.leb_gt in Le. unfold by_version_descending in Le.
        destruct (str_eqb (version a) (version h)) eqn:Ev.
        -- apply str_eqb_eq in Ev. rewrite Ev in Le.
           destruct (localeCompare_total (version h) (version h)); lia.
        -- apply IH. reflexivity.
Qed.

(** X5: in the data of the loader, [isLatest] is true exactly when no
    version was asked for or the version asked for is the version of
    the package [getPackageByName] returns; the page of that version
    then shows the very package the latest page shows. *)
Theorem loader_isLatest_iff_latest_version (params : PackageRoute.Params)
  (data : PackageRoute.LoaderData) :
  ConsistentCompare H ->
  PackageRoute.loader url net params = inr data ->
  (PackageRoute.isLatest data = true
   <-> truthy_opt (PackageRoute.version params) = false
       \/ exists latest,
            getPackageByName url net (PackageRoute.packageName params)
            = inr (Some latest)
            /\ PackageRoute.version params = Some (version latest))
  /\ (PackageRoute.isLatest data = true ->
      getPackageByName url net (PackageRoute.packageName params)
      = inr (Some (PackageRoute.package data))).
Proof.
  intros C E. pose proof (loader_succeeds _ E) as L.
  remember (PackageRoute.package data) as p eqn:Ep.
  rewrite (loader_unfold _ L) in E. injection E as E. subst data.
  cbn [PackageRoute.isLatest PackageRoute.package]. clear Ep.
  destruct (lookup_found _ L) as [Hin Hn].
  destruct (known_name_found (ex_intro _ _ (conj Hin Hn))) as [latest G].
  pose proof (@versions_list_head _ url net index fetched _ _ G) as Hd.
  cbn [nth_error] in Hd |- *. rewrite Hd.
  destruct (PackageRoute.version params) as [[|c v]|] eqn:V; simpl.
  - split; [tauto|]. intros _.
    unfold PackageRoute.lookup in L. rewrite V in L. exact L.
  - rewrite str_eqb_eq. split.
    + split.
      * intros Ev. right. exists latest. split; [exact G | congruence].
      * intros [D|[latest' [G' Ev]]]; [discriminate|].
        rewrite G in G'. injection G' as <-. congruence.
    + intros Ev. rewrite G. f_equal. f_equal.
      rewrite (@getPackageByName_unfold _ url net index fetched) in G.
      injection G as G.
      assert (Hs : nth_error
                     (sort by_version_descending
                        (versions_of index (PackageRoute.packageName params)))
                     0 = Some latest).
      { destruct (versions_of index (PackageRoute.packageName params));
          [discriminate | exact G]. }
      apply (sort_first_same_version _ C) in Hs.
      unfold versions_of in Hs. rewrite find_filter in Hs.
      rewrite lookup_unfold, V in L. injection L as L.
      rewrite Ev in Hs. rewrite Hs in L. congruence.
  - split; [tauto|]. intros _.
    unfold PackageRoute.lookup in L. rewrite V in L. exact L.
Qed.

(** X6: every page [prerender] lists for a package loads: the loader
    finds a package for each name of the index, and for each entry it
    finds a package with the name and the version of the entry (a
    version is never the empty string). *)
Theorem prerendered_package_pages_load :
  (forall pkg, In pkg (packages index) -> version pkg <> []) ->
  exists paths,
    RouterConfig.prerender url net = inr paths
    /\ forall path, In path paths ->
         path = lit "/"
         \/ (exists n data,
               path = RouterConfig.package_path n
               /\ PackageRoute.loader url net
                    {| PackageRoute.packageName := n;
                       PackageRoute.version := None |} = inr data
               /\ name (PackageRoute.package data) = n
               /\ PackageRoute.isLatest data = true)
         \/ (exists pkg data,
               In pkg (packages index)
               /\ path = version_path pkg
               /\ PackageRoute.loader url net
                    {| PackageRoute.packageName := name pkg;
                       PackageRoute.version := Some (version pkg) |} = inr data
               /\ name (PackageRoute.package data) = name pkg
               /\ version (PackageRoute.package data) = version pkg).
Proof.
  intros Hv.
  destruct (@prerender_covers_index _ url net index fetched)
    as [names [_ [I E]]].
  eexists. split; [exact E|].
  intros path [<-|Hp]; [left; reflexivity|]. right.
  apply in_app_or in Hp. destruct Hp as [Hp|Hp]; apply in_map_iff in Hp.
  - left. destruct Hp as [n [<- Hn]]. apply I in Hn.
    destruct (known_name_found Hn) as [latest G].
    set (params := {| PackageRoute.packageName := n;
                      PackageRoute.version := None |}).
    assert (L : PackageRoute.lookup url net params = inr (Some latest))
      by exact G.
    eexists n, _. split; [reflexivity|].
    split; [apply (loader_unfold _ L)|]. simpl.
    split; [|reflexivity].
    apply (@getPackageByName_In _ url net index fetched _ _ G).
  - right. destruct Hp as [pkg [<- Hin]].
    set (params := {| PackageRoute.packageName := name pkg;
                      PackageRoute.version := Some (version pkg) |}).
    assert (L : exists p, PackageRoute.lookup url net params = inr (Some p)).
    { rewrite lookup_unfold. simpl.
      destruct (version pkg) as [|c v] eqn:V; [elim (Hv pkg Hin V)|].
      destruct (List.find
                  (fun p => str_eqb (name p) (name pkg)
                            && str_eqb (version p) (c :: v))
                  (packages index)) as [p|] eqn:F; [eauto|].
      exfalso. pose proof (find_none _ _ F pkg Hin) as N. simpl in N.
      rewrite V, !str_eqb_refl in N. discriminate. }
    destruct L as [p L].
    exists pkg. eexists. split; [exact Hin|]. split; [reflexivity|].
    split; [apply (loader_unfold _ L)|]. simpl.
    unfold PackageRoute.lookup in L. simpl in L.
    destruct (version pkg) as [|c v] eqn:V; [elim (Hv pkg Hin V)|].
    destruct (@getPackageByNameAndVersion_In _ url net index fetched _ _ _ L)
      as [_ [A B]]. auto.
Qed.

(** X7: the version menu of a package page only leads to pages that
    [prerender] lists: whichever of the listed versions is chosen,
    [handleVersionChange] navigates to a prerendered path. *)
Theorem handleVersionChange_stays_prerendered (params : PackageRoute.Params)
  (data : PackageRoute.LoaderData) (chosen : jsstring) :
  PackageRoute.loader url net params = inr data ->
  In chosen (PackageRoute.versions data) ->
  exists paths,
    RouterConfig.prerender url net = inr paths
    /\ In (PackagePage.handleVersionChange
             (PackageRoute.package data) (PackageRoute.versions data) chosen)
          paths.
Proof.
  intros E Hc. pose proof (loader_succeeds _ E) as L.
  remember (PackageRoute.package data) as p eqn:Ep.
  rewrite (loader_unfold _ L) in E. injection E as E. subst data.
  cbn [PackageRoute.versions PackageRoute.package] in *. clear Ep.
  destruct (lookup_found _ L) as [Hin Hn].
  apply (@versions_list_In _ index) in Hc.
  destruct Hc as [pkg [Hpkg [Hpn Hpv]]].
  destruct (@prerender_covers_index _ url net index fetched)
    as [names [_ [I Ep]]].
  eexists. split; [exact Ep|].
  unfold PackagePage.handleVersionChange.
  destruct (match nth_error _ 0 with
            | Some latest => str_eqb chosen latest
            | None => false
            end).
  - right. apply in_or_app. left.
    apply (in_map RouterConfig.package_path), I. eauto.
  - right. apply in_or_app. right.
    replace (lit "/" ++ name p ++ lit "/v/" ++ chosen)
      with (version_path pkg)
      by (unfold version_path; congruence).
    apply in_map, Hpkg.
Qed.

End MoreLoaderFacts.

Section FailureFacts.
Context {H : Host}.
Import Packages.
Variable url : jsstring.
Variable net : fetch_outcome.

(** X8: when the index cannot be had, every accessor, every revision
    of [prerender] and every loader rejects with the very error
    [getPackagesIndex] threw: none of them recovers, replaces the error
    or answers 404 in its place. *)
Theorem index_failure_reaches_every_caller (e : thrown) :
  getPackagesIndex url net = inl e ->
  getUniquePackageNames url net = inl e
  /\ (forall packageName, getPackageByName url net packageName = inl e)
  /\ (forall name' version',
        getPackageByNameAndVersion url net name' version' = inl e)
  /\ (forall name', getVersionsForPackage url net name' = inl e)
  /\ getAllPackageVersionPaths url net = inl e
  /\ RouterConfig.prerender_names url net = inl e
  /\ RouterConfig.prerender url net = inl e
  /\ RouterConfig.prerender_sliced url net = inl e
  /\ (forall packageName,
        PackageRouteLatest.loader url net packageName = inl e)
  /\ (forall params, PackageRoute.loader url net params = inl e)
  /\ SearchRoute.loader url net = inl e
  /\ (forall body status, e <> HttpResponse body status).
Proof.
  intros F.
  assert (U : getUniquePackageNames url net = inl e)
    by (unfold getUniquePackageNames; rewrite F; reflexivity).
  assert (G : forall packageName, getPackageByName url net packageName = inl e)
    by (intros; unfold getPackageByName; rewrite F; reflexivity).
  split; [exact U|]. split; [exact G|].
  split; [intros; unfold getPackageByNameAndVersion; rewrite F; reflexivity|].
  split; [intros; unfold getVersionsForPackage; rewrite F; reflexivity|].
  split; [unfold getAllPackageVersionPaths; rewrite F; reflexivity|].
  split; [unfold RouterConfig.prerender_names; rewrite U; reflexivity|].
  split; [unfold RouterConfig.prerender; rewrite U; reflexivity|].
  split; [unfold RouterConfig.prerender_sliced; rewrite U; reflexivity|].
  split; [intros; unfold PackageRouteLatest.loader; rewrite G; reflexivity|].
  split; [intros params;
          apply (@loaders_without_index _ url net e F params)|].
  split; [unfold SearchRoute.loader; rewrite F; reflexivity|].
  apply (@getPackagesIndex_throws _ url net e F).
Qed.

End FailureFacts.

(* ================================================================== *)
(** * The search page                                                   *)
(* ================================================================== *)

Section UrlFacts.

Lemma split_not_nil (s : jsstring) : split s <> [].
Proof.
  induction s as [|c s IH]; simpl; [discriminate|].
  destruct (N.eqb c comma); [discriminate|].
  destruct (split s); [contradiction | discriminate].
Qed.

Lemma split_no_comma (s piece : jsstring) :
  In piece (split s) -> ~ In comma piece.
Proof.
  revert piece. induction s as [|c s IH]; simpl; intros piece.
  - intros [<-|[]] [].
  - destruct (N.eqb_spec c comma) as [->|Hne].
    + intros [<-|Hp]; [intros [] | apply IH, Hp].
    + destruct (split s) as [|p ps] eqn:E; [elim (@split_not_nil s E)|].
      intros [<-|Hp].
      * intros [Hc|Hc]; [congruence|]. apply (IH p); [left; reflexivity | exact Hc].
      * apply IH. right. exact Hp.
Qed.

Lemma split_plain (x : jsstring) : ~ In comma x -> split x = [x].
Proof.
  induction x as [|c x IH]; simpl; intros Hn; [reflexivity|].
  destruct (N.eqb_spec c comma) as [->|Hne]; [tauto|].
  rewrite IH by tauto. reflexivity.
Qed.

Lemma split_app_comma (x rest : jsstring) :
  ~ In comma x -> split (x ++ comma :: rest) = x :: split rest.
Proof.
  induction x as [|c x IH]; simpl; intros Hn.
  - reflexivity.
  - destruct (N.eqb_spec c comma) as [->|Hne]; [tauto|].
    rewrite IH by tauto. reflexivity.
Qed.

(** Splitting what [join] made gives the pieces back, when no piece
    holds a comma. *)
Lemma split_join (l : list jsstring) :
  l <> [] -> Forall (fun x => ~ In comma x) l -> split (join l) = l.
Proof.
  induction l as [|x l IH]; [contradiction|].
  intros _ Hall. inversion Hall as [|? ? Hx Hl]; subst.
  destruct l as [|y l].
  - simpl. apply split_plain, Hx.
  - change (join (x :: y :: l)) with (x ++ comma :: join (y :: l)).
    rewrite (@split_app_comma x (join (y :: l)) Hx), IH; [reflexivity | discriminate | exact Hl].
Qed.

Lemma filter_truthy_plain (l : list jsstring) :
  Forall plain_tag l -> filter truthy l = l.
Proof.
  induction 1 as [|x l [Hx _] _ IH]; simpl; [reflexivity|].
  destruct x; [contradiction|]. simpl. rewrite IH. reflexivity.
Qed.

Lemma join_split (s : jsstring) : join (split s) = s.
Proof.
  induction s as [|c s IH]; [reflexivity|]. cbn [split].
  destruct (N.eqb_spec c comma) as [->|Hne].
  - destruct (split s) as [|p ps] eqn:E; [elim (@split_not_nil s E)|].
    change (join ([] :: p :: ps)) with (comma :: join (p :: ps)).
    rewrite IH. reflexivity.
  - destruct (split s) as [|p ps] eqn:E; [elim (@split_not_nil s E)|].
    rewrite <- IH. destruct ps; reflexivity.
Qed.

End UrlFacts.

(** Strings without lone surrogates: the recursion goes by one code
    unit or by two. *)
Section WellFormedFacts.

Lemma list_ind2 (A : Type) (P : list A -> Prop) :
  P [] -> (forall a, P [a]) ->
  (forall a b l, P l -> P (b :: l) -> P (a :: b :: l)) ->
  forall l, P l.
Proof.
  intros P0 P1 P2 l.
  assert (G : P l /\ forall a, P (a :: l)).
  { induction l as [|b l [IH1 IH2]]; [split; [exact P0 | exact P1]|].
    split; [apply IH2|]. intros a. apply P2; [exact IH1 | apply IH2]. }
  apply G.
Qed.

Lemma isWellFormed_cons2 (a b : code_unit) (l : jsstring) :
  isWellFormed (a :: b :: l)
  = if is_leading_surrogate a
    then is_trailing_surrogate b && isWellFormed l
    else negb (is_trailing_surrogate a) && isWellFormed (b :: l).
Proof. reflexivity. Qed.

Lemma toWellFormed_cons2 (a b : code_unit) (l : jsstring) :
  toWellFormed (a :: b :: l)
  = if is_leading_surrogate a
    then if is_trailing_surrogate b then a :: b :: toWellFormed l
         else replacement_character :: toWellFormed (b :: l)
    else if is_trailing_surrogate a
         then replacement_character :: toWellFormed (b :: l)
         else a :: toWellFormed (b :: l).
Proof. reflexivity. Qed.

Lemma isWellFormed_cons_plain (c : code_unit) (s : jsstring) :
  is_leading_surrogate c = false -> is_trailing_surrogate c = false ->
  isWellFormed (c :: s) = isWellFormed s.
Proof. intros L T. cbn [isWellFormed]. rewrite L, T. reflexivity. Qed.

(** A string without lone surrogate is stored as it is. *)
Lemma toWellFormed_well_formed (s : jsstring) :
  well_formed s -> toWellFormed s = s.
Proof.
  unfold well_formed. induction s as [|a|a b l IH1 IH2] using list_ind2.
  - reflexivity.
  - cbn [isWellFormed toWellFormed].
    destruct (is_leading_surrogate a); [discriminate|].
    destruct (is_trailing_surrogate a); [discriminate | reflexivity].
  - rewrite isWellFormed_cons2, toWellFormed_cons2.
    destruct (is_leading_surrogate a).
    + destruct (is_trailing_surrogate b); [|discriminate].
      intros W. rewrite (IH1 W). reflexivity.
    + destruct (is_trailing_surrogate a); [discriminate|].
      intros W. rewrite (IH2 W). reflexivity.
Qed.

(** What is stored has no lone surrogate. *)
Lemma well_formed_toWellFormed (s : jsstring) : well_formed (toWellFormed s).
Proof.
  unfold well_formed. induction s as [|a|a b l IH1 IH2] using list_ind2.
  - reflexivity.
  - cbn [toWellFormed].
    destruct (is_leading_surrogate a) eqn:L; [reflexivity|].
    destruct (is_trailing_surrogate a) eqn:T; [reflexivity|].
    apply (@isWellFormed_cons_plain a [] L T).
  - rewrite toWellFormed_cons2.
    destruct (is_leading_surrogate a) eqn:L.
    + destruct (is_trailing_surrogate b) eqn:T.
      * rewrite isWellFormed_cons2, L, T. exact IH1.
      * rewrite isWellFormed_cons_plain; [exact IH2 | reflexivity | reflexivity].
    + destruct (is_trailing_surrogate a) eqn:T.
      * rewrite isWellFormed_cons_plain; [exact IH2 | reflexivity | reflexivity].
      * rewrite (@isWellFormed_cons_plain a _ L T). exact IH2.
Qed.

(** A comma is no surrogate, so no pair of surrogates lies across one. *)
Lemma isWellFormed_app_comma (x rest : jsstring) :
  isWellFormed (x ++ comma :: rest) = isWellFormed x && isWellFormed rest.
Proof.
  induction x as [|a|a b l IH1 IH2] using list_ind2.
  - reflexivity.
  - change ([a] ++ comma :: rest) with (a :: comma :: rest).
    rewrite isWellFormed_cons2.
    rewrite (@isWellFormed_cons_plain comma rest eq_refl eq_refl).
    change (isWellFormed [a])
      with (if is_leading_surrogate a then false
            else negb (is_trailing_surrogate a) && true).
    destruct (is_leading_surrogate a); [reflexivity|].
    rewrite andb_true_r. reflexivity.
  - change ((a :: b :: l) ++ comma :: rest)
      with (a :: b :: (l ++ comma :: rest)).
    rewrite !isWellFormed_cons2.
    change (b :: l ++ comma :: rest) with ((b :: l) ++ comma :: rest).
    rewrite IH1, IH2.
    destruct (is_leading_surrogate a); rewrite andb_assoc; reflexivity.
Qed.

Lemma isWellFormed_join (l : list jsstring) :
  isWellFormed (join l) = forallb isWellFormed l.
Proof.
  induction l as [|x l IH]; [reflexivity|].
  destruct l as [|y l].
  - cbn [join forallb]. rewrite andb_true_r. reflexivity.
  - change (join (x :: y :: l)) with (x ++ comma :: join (y :: l)).
    rewrite isWellFormed_app_comma, IH. reflexivity.
Qed.

Lemma well_formed_join (l : list jsstring) :
  Forall well_formed l -> well_formed (join l).
Proof.
  intros Hall. unfold well_formed. rewrite isWellFormed_join.
  apply forallb_forall. intros x Hx. rewrite Forall_forall in Hall.
  apply Hall, Hx.
Qed.

Lemma well_formed_split (s : jsstring) :
  well_formed s -> Forall well_formed (split s).
Proof.
  unfold well_formed. intros W.
  rewrite <- (join_split s), isWellFormed_join in W.
  apply Forall_forall. intros x Hx.
  apply (proj1 (forallb_forall isWellFormed (split s)) W x Hx).
Qed.

End WellFormedFacts.

Section StringOrder.

Lemma str_ltb_irrefl (a : jsstring) : str_ltb a a = false.
Proof.
  induction a as [|x a IH]; simpl; [reflexivity|].
  rewrite N.ltb_irrefl, N.eqb_refl, IH. reflexivity.
Qed.

Lemma str_ltb_asym (a b : jsstring) : str_ltb a b = true -> str_ltb b a = false.
Proof.
  revert b. induction a as [|x a IH]; intros [|y b]; simpl; auto.
  destruct (N.ltb_spec x y), (N.ltb_spec y x), (N.eqb_spec x y),
    (N.eqb_spec y x); simpl; try lia; auto; discriminate.
Qed.

(** [a] is not after [b]. *)
Lemma str_le_trans (a b c : jsstring) :
  str_ltb b a = false -> str_ltb c b = false -> str_ltb c a = false.
Proof.
  revert b c. induction a as [|x a IH]; intros [|y b] [|z c]; simpl; auto;
    try discriminate.
  destruct (N.ltb_spec y x), (N.ltb_spec z y), (N.ltb_spec z x),
    (N.eqb_spec y x), (N.eqb_spec z y), (N.eqb_spec z x);
    simpl; auto; try discriminate; try lia.
  apply IH.
Qed.

Lemma default_compare_le (a b : jsstring) :
  (default_compare a b <= 0)%Z <-> str_ltb b a = false.
Proof.
  unfold default_compare. destruct (str_ltb a b) eqn:L.
  - rewrite (str_ltb_asym _ _ L). split; [reflexivity | lia].
  - destruct (str_ltb b a); split; try reflexivity; try lia; discriminate.
Qed.

Lemma default_sort_sorted (l : list jsstring) :
  StronglySorted (before default_compare) (sort default_compare l).
Proof.
  apply sort_sorted; unfold before.
  - intros a b. rewrite !default_compare_le.
    destruct (str_ltb b a) eqn:L; [right; apply str_ltb_asym, L | left; reflexivity].
  - intros a b c. rewrite !default_compare_le. apply str_le_trans.
Qed.

End StringOrder.

Section SearchRouteFacts.
Context {H : Host}.
Import SearchRoute.

Lemma selectedTags_plain (st : State) : Forall plain_tag (selectedTags st).
Proof.
  unfold selectedTags. destruct (searchParams st) as [value|]; [|constructor].
  apply Forall_forall. intros x Hx. apply filter_In in Hx.
  destruct Hx as [Hin Ht]. split.
  - destruct x; [discriminate | discriminate].
  - apply (@split_no_comma _ _ Hin).
Qed.

Lemma join_not_empty (l : list jsstring) :
  l <> [] -> Forall plain_tag l -> join l <> [].
Proof.
  destruct l as [|x l]; [contradiction|]. intros _ Hall.
  inversion Hall as [|? ? [Hx _] _]; subst.
  destruct x as [|c x]; [contradiction|].
  destruct l; simpl; discriminate.
Qed.

Lemma selectedTags_join (query : jsstring) (tags' : list jsstring) :
  tags' <> [] -> Forall plain_tag tags' ->
  selectedTags {| textQuery := query; searchParams := Some (join tags') |}
  = tags'.
Proof.
  intros Hne Hall. unfold selectedTags. simpl.
  rewrite split_join; [apply filter_truthy_plain, Hall | exact Hne |].
  eapply Forall_impl; [|exact Hall]. intros x [_ Hx]. exact Hx.
Qed.

Lemma newTags_plain (st : State) (tag' : jsstring) :
  plain_tag (toLowerCase tag') -> Forall plain_tag (newTags st tag').
Proof.
  intros Hp. unfold newTags. pose proof (selectedTags_plain st) as Hs.
  destruct (includes (selectedTags st) (toLowerCase tag')).
  - apply Forall_forall. intros x Hx. apply filter_In in Hx.
    rewrite Forall_forall in Hs. apply Hs, Hx.
  - apply Forall_app. split; [exact Hs | constructor; [exact Hp | constructor]].
Qed.

Lemma selectedTags_well_formed (st : State) :
  well_formed_state st -> Forall well_formed (selectedTags st).
Proof.
  unfold well_formed_state, selectedTags.
  destruct (searchParams st) as [value|]; [|constructor].
  intros W. apply Forall_forall. intros x Hx. apply filter_In in Hx.
  pose proof (well_formed_split W) as Hall. rewrite Forall_forall in Hall.
  apply Hall, Hx.
Qed.

Lemma newTags_well_formed (st : State) (tag' : jsstring) :
  well_formed (toLowerCase tag') -> well_formed_state st ->
  Forall well_formed (newTags st tag').
Proof.
  intros Wt Ws. unfold newTags.
  pose proof (selectedTags_well_formed st Ws) as Hs.
  destruct (includes (selectedTags st) (toLowerCase tag')).
  - apply Forall_forall. intros x Hx. apply filter_In in Hx.
    rewrite Forall_forall in Hs. apply Hs, Hx.
  - apply Forall_app. split; [exact Hs | constructor; [exact Wt | constructor]].
Qed.

(** The page sets the parameter to a string without lone surrogate, or
    takes it away. *)
Lemma toggleTag_well_formed (st : State) (tag' : jsstring) :
  well_formed_state (toggleTag st tag').
Proof.
  unfold well_formed_state, toggleTag.
  destruct (Nat.ltb 0 (List.length (newTags st tag')));
    cbn [searchParams setSearchParams]; [apply well_formed_toWellFormed | exact I].
Qed.

(** Tags without lone surrogates are written to the URL and read back
    as they are. *)
Lemma setSearchParams_join (tags' : list jsstring) :
  Forall well_formed tags' ->
  setSearchParams (Some (join tags')) = Some (join tags').
Proof.
  intros W. cbn [setSearchParams].
  rewrite (toWellFormed_well_formed (well_formed_join W)). reflexivity.
Qed.

Lemma toggleTag_selectedTags (st : State) (tag' : jsstring) :
  plain_tag (toLowerCase tag') ->
  Forall well_formed (newTags st tag') ->
  selectedTags (toggleTag st tag') = sort default_compare (newTags st tag')
  /\ searchParams (toggleTag st tag') <> Some [].
Proof.
  intros Hp Hw. pose proof (@newTags_plain st tag' Hp) as Hall.
  unfold toggleTag.
  destruct (newTags st tag') as [|x l] eqn:E.
  - simpl. split; [reflexivity | discriminate].
  - assert (Hs : Forall plain_tag (sort default_compare (x :: l))).
    { apply Permutation_Forall with (x :: l);
        [symmetry; apply sort_perm | exact Hall]. }
    assert (Hws : Forall well_formed (sort default_compare (x :: l))).
    { apply Permutation_Forall with (x :: l);
        [symmetry; apply sort_perm | exact Hw]. }
    assert (Hn : sort default_compare (x :: l) <> []).
    { intros N. pose proof (sort_length default_compare (x :: l)) as L.
      rewrite N in L. discriminate. }
    cbn [List.length Nat.ltb Nat.leb]. rewrite (setSearchParams_join Hws).
    split.
    + apply selectedTags_join; assumption.
    + cbn [searchParams]. intros N. injection N as N.
      exact (@join_not_empty _ Hn Hs N).
Qed.

Lemma newTags_In (st : State) (tag' x : jsstring) :
  In x (newTags st tag')
  <-> if includes (selectedTags st) (toLowerCase tag')
      then In x (selectedTags st) /\ x <> toLowerCase tag'
      else In x (selectedTags st) \/ x = toLowerCase tag'.
Proof.
  unfold newTags. destruct (includes (selectedTags st) (toLowerCase tag')).
  - rewrite filter_In, negb_true_iff, str_eqb_neq. tauto.
  - rewrite in_app_iff. simpl. intuition congruence.
Qed.

Lemma toggleTag_In (st : State) (tag' x : jsstring) :
  plain_tag (toLowerCase tag') ->
  well_formed (toLowerCase tag') -> well_formed_state st ->
  In x (selectedTags (toggleTag st tag'))
  <-> if includes (selectedTags st) (toLowerCase tag')
      then In x (selectedTags st) /\ x <> toLowerCase tag'
      else In x (selectedTags st) \/ x = toLowerCase tag'.
Proof.
  intros Hp Wt Ws.
  destruct (@toggleTag_selectedTags st tag' Hp
              (@newTags_well_formed st tag' Wt Ws)) as [E _].
  rewrite E, sort_In. apply newTags_In.
Qed.

(** X9: the tags read from the URL are never empty and never hold a
    comma, whatever the value of the parameter. *)
Theorem selectedTags_never_empty_or_comma (st : State) :
  Forall plain_tag (selectedTags st)
  /\ (searchParams st = None -> selectedTags st = [])
  /\ (searchParams st = Some [] -> selectedTags st = []).
Proof.
  split; [apply selectedTags_plain|].
  unfold selectedTags. split; intros ->; reflexivity.
Qed.

(** X10: a list of tags, none empty, none with a comma and none with a
    lone surrogate, joined with commas and written to the URL with
    [setSearchParams], is read back from the URL as the same list. *)
Theorem selectedTags_of_joined_tags (query : jsstring)
  (tags' : list jsstring) :
  tags' <> [] -> Forall plain_tag tags' -> Forall well_formed tags' ->
  selectedTags {| textQuery := query;
                  searchParams := setSearchParams (Some (join tags')) |}
  = tags'.
Proof.
  intros Hne Hall Hw. rewrite (setSearchParams_join Hw).
  unfold selectedTags. cbn [searchParams].
  assert (Hc : Forall (fun x => ~ In comma x) tags').
  { eapply Forall_impl; [|exact Hall]. intros x [_ Hx]. exact Hx. }
  rewrite (split_join Hne Hc). apply filter_truthy_plain, Hall.
Qed.

(** X11: on a page whose parameter has no lone surrogate, for a tag
    whose lower case is not empty and has no comma and no lone
    surrogate, [toggleTag] removes the lower-case tag from the selection
    when it is selected and adds it otherwise, and leaves every other
    tag and the text query alone; the URL then lists the selection in
    sorted order, never holds an empty parameter, and its parameter has
    no lone surrogate again. *)
Theorem toggleTag_adds_or_removes (st : State) (tag' : jsstring) :
  plain_tag (toLowerCase tag') ->
  well_formed (toLowerCase tag') -> well_formed_state st ->
  textQuery (toggleTag st tag') = textQuery st
  /\ (forall x,
        In x (selectedTags (toggleTag st tag'))
        <-> if checked st (toLowerCase tag')
            then In x (selectedTags st) /\ x <> toLowerCase tag'
            else In x (selectedTags st) \/ x = toLowerCase tag')
  /\ StronglySorted (fun a b => str_ltb b a = false)
                    (selectedTags (toggleTag st tag'))
  /\ searchParams (toggleTag st tag') <> Some []
  /\ well_formed_state (toggleTag st tag').
Proof.
  intros Hp Wt Ws.
  destruct (@toggleTag_selectedTags st tag' Hp
              (@newTags_well_formed st tag' Wt Ws)) as [E N].
  split; [|split; [|split; [|split]]].
  - unfold toggleTag. destruct (Nat.ltb 0 _); reflexivity.
  - intros x. apply toggleTag_In; assumption.
  - rewrite E.
    apply StronglySorted_weaken with (R := before default_compare).
    + intros a b. apply default_compare_le.
    + apply default_sort_sorted.
  - exact N.
  - apply toggleTag_well_formed.
Qed.

(** X12: on a page whose parameter has no lone surrogate, toggling
    twice the same tag, whose lower case is not empty and has no comma
    and no lone surrogate, gives back the selection, as a set of
    tags. *)
Theorem toggleTag_twice (st : State) (tag' : jsstring) :
  plain_tag (toLowerCase tag') ->
  well_formed (toLowerCase tag') -> well_formed_state st ->
  forall x,
    In x (selectedTags (toggleTag (toggleTag st tag') tag'))
    <-> In x (selectedTags st).
Proof.
  intros Hp Wt Ws x.
  pose proof (toggleTag_well_formed st tag') as Ws'.
  rewrite (@toggleTag_In (toggleTag st tag') tag' x Hp Wt Ws').
  destruct (includes (selectedTags (toggleTag st tag')) (toLowerCase tag'))
    eqn:I2.
  - apply includes_In in I2.
    rewrite (@toggleTag_In st tag' (toLowerCase tag') Hp Wt Ws) in I2.
    rewrite (@toggleTag_In st tag' x Hp Wt Ws).
    destruct (includes (selectedTags st) (toLowerCase tag')) eqn:I1.
    + destruct I2 as [_ I2]. congruence.
    + assert (N1 : ~ In (toLowerCase tag') (selectedTags st)).
      { intros Hi. apply includes_In in Hi. congruence. }
      split; [intros [[Hx| ->] Hn]; [assumption | congruence]|].
      intros Hx. split; [auto|]. intros ->. contradiction.
  - assert (N2 : ~ In (toLowerCase tag') (selectedTags (toggleTag st tag'))).
    { intros Hi. apply includes_In in Hi. congruence. }
    rewrite (@toggleTag_In st tag' (toLowerCase tag') Hp Wt Ws) in N2.
    rewrite (@toggleTag_In st tag' x Hp Wt Ws).
    destruct (includes (selectedTags st) (toLowerCase tag')) eqn:I1.
    + apply includes_In in I1.
      split; [intros [[Hx _]| ->]; assumption|].
      intros Hx. destruct (str_eqb x (toLowerCase tag')) eqn:Ex.
      * right. apply str_eqb_eq, Ex.
      * left. split; [exact Hx | apply str_eqb_neq, Ex].
    + exfalso. apply N2. right. reflexivity.
Qed.

(** X13: when the page shows no active filter, it lists every package
    it was given, in the order given; [clearAllFilters] leads to that
    state. *)
Theorem no_active_filter_lists_everything (packages : list Package)
  (st : State) :
  (hasActiveFilters st = false -> filteredPackages packages st = packages)
  /\ hasActiveFilters (clearAllFilters st) = false
  /\ filteredPackages packages (clearAllFilters st) = packages.
Proof.
  assert (G : forall st', hasActiveFilters st' = false ->
                          filteredPackages packages st' = packages).
  { intros st' Ha. unfold hasActiveFilters in Ha.
    apply orb_false_iff in Ha. destruct Ha as [Hq Hs].
    apply negb_false_iff, str_eqb_eq, trim_empty in Hq.
    unfold filteredPackages. rewrite applyFilters_compose.
    destruct (selectedTags st') as [|t ts]; [|discriminate].
    rewrite filterByTags_nil. apply textSearch_blank, Hq. }
  split; [apply G|]. split; [reflexivity|]. apply G. reflexivity.
Qed.

End SearchRouteFacts.

(* ================================================================== *)
(** * More on tags                                                      *)
(* ================================================================== *)

Section MoreTagFacts.
Context {H : Host}.
Import Search.

Lemma countTags_sorted (packages : list Package) :
  StronglySorted (fun a b => (count b <= count a)%N) (countTags packages).
Proof.
  unfold countTags.
  apply StronglySorted_weaken
    with (R := before (fun a b => (Z.of_N (count b) - Z.of_N (count a))%Z)).
  - unfold before. intros a b. lia.
  - apply sort_sorted; unfold before; intros; lia.
Qed.

Lemma countTags_entry (packages : list Package) (entry : TagCount) :
  In entry (countTags packages) ->
  In (tag entry) (lowered_tags packages)
  /\ count entry = occurrences (tag entry) (lowered_tags packages).
Proof.
  unfold countTags, lowered_tags. intros He. apply sort_In in He.
  apply in_map_iff in He. destruct He as [[k v] [<- Hkv]]. simpl.
  destruct (@fold_count_tag _ (flat_map tags packages) []) as [N1 [I1 C1]];
    [constructor|].
  rewrite <- tally_flat in N1, I1, C1. split.
  - assert (Hk : In k (keys (tally packages)))
      by (apply (in_map fst) in Hkv; exact Hkv).
    apply I1 in Hk. destruct Hk as [[]|Hk]. exact Hk.
  - pose proof (C1 k) as Ck. unfold counted in Ck.
    rewrite (@Map_get_In _ k v N1 Hkv), or_zero_Some in Ck. exact Ck.
Qed.

Lemma StronglySorted_app_cross (A : Type) (R : A -> A -> Prop)
  (a b : list A) :
  StronglySorted R (a ++ b) ->
  forall x y, In x a -> In y b -> R x y.
Proof.
  induction a as [|z a IH]; simpl; intros Hs x y Hx Hy; [destruct Hx|].
  inversion Hs as [|? ? Hs' Hall]; subst.
  destruct Hx as [<-|Hx].
  - rewrite Forall_forall in Hall. apply Hall, in_or_app. right. exact Hy.
  - exact (IH Hs' x y Hx Hy).
Qed.

(** X14: the page offers at most ten tags, each of them counted by
    [countTags], and no tag left out has a greater count than a tag
    offered. *)
Theorem shownTags_have_greatest_counts (packages : list Package) :
  List.length (SearchRoute.shownTags packages) <= 10
  /\ incl (SearchRoute.shownTags packages) (countTags packages)
  /\ forall shown hidden,
       In shown (SearchRoute.shownTags packages) ->
       In hidden (skipn 10 (countTags packages)) ->
       (count hidden <= count shown)%N.
Proof.
  unfold SearchRoute.shownTags. split; [apply firstn_le_length|]. split.
  - intros x Hx. rewrite <- (firstn_skipn 10 (countTags packages)).
    apply in_or_app. left. exact Hx.
  - intros shown hidden Hs Hh.
    pose proof (countTags_sorted packages) as S.
    rewrite <- (firstn_skipn 10 (countTags packages)) in S.
    exact (@StronglySorted_app_cross _ _ _ _ S shown hidden Hs Hh).
Qed.

Lemma occurrences_app (t : jsstring) (a b : list jsstring) :
  occurrences t (a ++ b) = (occurrences t a + occurrences t b)%N.
Proof.
  unfold occurrences. rewrite filter_app, length_app. lia.
Qed.

Lemma occurrences_In (t : jsstring) (l : list jsstring) :
  In t l -> (1 <= occurrences t l)%N.
Proof.
  induction l as [|x l IH]; simpl; [tauto|].
  rewrite occurrences_cons. intros [->|Hin].
  - rewrite str_eqb_refl. lia.
  - specialize (IH Hin). destruct (str_eqb t x); lia.
Qed.

(** The test [filterByTags] makes on a package, for one selected tag
    that is in lower case already. *)
Lemma carries_tag (t : jsstring) (pkg : Package) :
  toLowerCase t = t ->
  existsb (fun pkgTag => includes (map toLowerCase [t]) (toLowerCase pkgTag))
          (tags pkg) = true
  <-> In t (map toLowerCase (tags pkg)).
Proof.
  intros Et. rewrite existsb_exists, in_map_iff.
  change (map toLowerCase [t]) with [toLowerCase t]. rewrite Et.
  split; intros [x [A B]]; exists x.
  - apply includes_In in B. destruct B as [B|[]]. auto.
  - split; [exact B|]. apply includes_In. left. auto.
Qed.

(** X15: every tag [countTags] lists selects something: filtering by
    it gives at least one package, and never more packages than its
    count. *)
Theorem counted_tag_selects_packages (packages : list Package)
  (entry : TagCount) :
  lower_case_stable H ->
  In entry (countTags packages) ->
  (1 <= count entry)%N
  /\ filterByTags packages [tag entry] <> []
  /\ (N.of_nat (List.length (filterByTags packages [tag entry]))
      <= count entry)%N.
Proof.
  intros St He. destruct (@countTags_entry packages entry He) as [Hin Hc].
  assert (Et : toLowerCase (tag entry) = tag entry).
  { unfold lowered_tags in Hin. apply in_map_iff in Hin.
    destruct Hin as [x [<- _]]. apply St. }
  split; [rewrite Hc; apply occurrences_In, Hin|].
  unfold filterByTags. cbn [List.length Nat.eqb].
  set (f := fun pkg : Package =>
              existsb (fun pkgTag =>
                         includes (map toLowerCase [tag entry])
                                  (toLowerCase pkgTag)) (tags pkg)).
  split.
  - unfold lowered_tags in Hin. rewrite in_map_iff in Hin.
    destruct Hin as [x [Ex Hx]]. apply in_flat_map in Hx.
    destruct Hx as [pkg [Hp Hx]].
    assert (Hf : In pkg (filter f packages)).
    { apply filter_In. split; [exact Hp|]. apply (@carries_tag _ pkg Et).
      rewrite <- Ex. apply in_map, Hx. }
    intros N. rewrite N in Hf. destruct Hf.
  - rewrite Hc. unfold lowered_tags. clear He Hin Hc.
    induction packages as [|pkg packages IH]; simpl.
    + unfold occurrences. simpl. lia.
    + rewrite map_app, occurrences_app.
      destruct (f pkg) eqn:F; cbn [List.length]; [|lia].
      apply (@carries_tag _ pkg Et) in F. apply occurrences_In in F. lia.
Qed.

Lemma includes_ext (l l' : list jsstring) :
  (forall x, In x l <-> In x l') ->
  forall y, includes l y = includes l' y.
Proof.
  intros Hl y. destruct (includes l y) eqn:A, (includes l' y) eqn:B;
    try reflexivity.
  - apply includes_In, Hl, includes_In in A. congruence.
  - apply includes_In, Hl, includes_In in B. congruence.
Qed.

(** X16: [filterByTags] looks at the selected tags as a set of
    lower-case strings: two tag lists, neither empty, with the same
    lower-case tags select the same packages, whatever the case, the
    order or the repetitions; and putting the selected tags in lower
    case first changes nothing. *)
Theorem filterByTags_ignores_case_and_order (packages : list Package)
  (selected selected' : list jsstring) :
  (selected <> [] -> selected' <> [] ->
   (forall x, In x (map toLowerCase selected)
              <-> In x (map toLowerCase selected')) ->
   filterByTags packages selected = filterByTags packages selected')
  /\ (lower_case_stable H ->
      filterByTags packages (map toLowerCase selected)
      = filterByTags packages selected).
Proof.
  assert (G : forall a b, a <> [] -> b <> [] ->
            (forall x, In x (map toLowerCase a) <-> In x (map toLowerCase b)) ->
            filterByTags packages a = filterByTags packages b).
  { intros a b Ha Hb Hab. unfold filterByTags.
    destruct a as [|x a]; [contradiction|].
    destruct b as [|y b]; [contradiction|]. cbn [List.length Nat.eqb].
    apply filter_ext. intros pkg.
    induction (tags pkg) as [|t ts IH]; [reflexivity|].
    cbn [existsb]. rewrite IH. f_equal. apply (@includes_ext _ _ Hab). }
  split; [apply G|].
  intros St. destruct selected as [|x l]; [reflexivity|].
  apply G; try discriminate.
  intros y. rewrite map_map.
  rewrite (map_ext (fun s => toLowerCase (toLowerCase s)) toLowerCase St).
  tauto.
Qed.

Lemma filter_swap (A : Type) (f g : A -> bool) (l : list A) :
  filter f (filter g l) = filter g (filter f l).
Proof.
  rewrite !filter_both. apply filter_ext. intros x. apply andb_comm.
Qed.

(** X17: tag filters compose: filtering by one tag list and then by
    another gives the same packages in either order, filtering twice
    by the same list is filtering once, and filtering a concatenation
    of package lists is filtering each. *)
Theorem filterByTags_composes (packages more : list Package)
  (a b : list jsstring) :
  filterByTags (filterByTags packages a) b
  = filterByTags (filterByTags packages b) a
  /\ filterByTags (filterByTags packages a) a = filterByTags packages a
  /\ filterByTags (packages ++ more) a
     = filterByTags packages a ++ filterByTags more a.
Proof.
  unfold filterByTags.
  destruct a as [|x a], b as [|y b]; cbn [List.length Nat.eqb];
    repeat split; try reflexivity.
  - apply filter_absorb. auto.
  - apply filter_app.
  - apply filter_swap.
  - apply filter_absorb. auto.
  - apply filter_app.
Qed.

(** The sum of the values of a map. *)
Lemma total_count_perm (l l' : list TagCount) :
  Permutation l l' -> total_count l = total_count l'.
Proof.
  induction 1; simpl; try lia.
Qed.

Lemma total_Map_set (m : Map) (key : jsstring) :
  total_count
    (map (fun e => {| tag := fst e; count := snd e |})
         (Map_set m key (or_zero (Map_get m key) + 1)%N))
  = (total_count (map (fun e => {| tag := fst e; count := snd e |}) m) + 1)%N.
Proof.
  unfold total_count in *.
  induction m as [|[k v] m IH]; cbn [Map_get Map_set].
  - reflexivity.
  - destruct (str_eqb k key); cbn [map fold_right fst snd count].
    + rewrite or_zero_Some. lia.
    + rewrite IH. lia.
Qed.

Lemma total_fold_count_tag (l : list jsstring) (m : Map) :
  total_count
    (map (fun e => {| tag := fst e; count := snd e |})
         (fold_left count_tag l m))
  = (total_count (map (fun e => {| tag := fst e; count := snd e |}) m)
     + N.of_nat (List.length l))%N.
Proof.
  revert m. induction l as [|t l IH]; intros m; cbn [fold_left List.length].
  - lia.
  - rewrite IH. unfold count_tag. rewrite total_Map_set. lia.
Qed.

(** X18: [countTags] loses no tag and counts none twice: the counts
    add up to the number of tags the packages carry, and the result is
    empty exactly when no package carries a tag. *)
Theorem countTags_counts_every_tag (packages : list Package) :
  total_count (countTags packages)
  = N.of_nat (List.length (flat_map tags packages))
  /\ (countTags packages = []
      <-> forall pkg, In pkg packages -> tags pkg = []).
Proof.
  assert (T : total_count (countTags packages)
              = N.of_nat (List.length (flat_map tags packages))).
  { unfold countTags. rewrite (@total_count_perm _ _ (sort_perm _ _)).
    rewrite tally_flat, total_fold_count_tag. simpl. lia. }
  split; [exact T|]. split.
  - intros E pkg Hin. rewrite E in T. simpl in T.
    destruct (tags pkg) as [|t ts] eqn:Et; [reflexivity|]. exfalso.
    assert (Hl : In t (flat_map tags packages)).
    { apply in_flat_map. exists pkg. rewrite Et. simpl. auto. }
    destruct (flat_map tags packages); [destruct Hl | simpl in T; lia].
  - intros Hall.
    assert (Ef : flat_map tags packages = []).
    { clear T. induction packages as [|pkg packages IH]; simpl; [reflexivity|].
      rewrite (Hall pkg (or_introl eq_refl)), IH; [reflexivity|].
      intros q Hq. apply Hall. right. exact Hq. }
    unfold countTags. rewrite tally_flat, Ef. reflexivity.
Qed.

End MoreTagFacts.

(* ================================================================== *)
(** * More on the cache, the link and the paths                         *)
(* ================================================================== *)

Section MoreCacheFacts.
Context {H : Host}.
Import Packages.
Variable url : jsstring.

(** X19: once the index is in the cache nothing changes any more:
    whatever is called or answered later, the module variables stay as
    they are and every call returns that index; the index is the one
    the accessors compute from the answer to the single request, and
    it holds no dummy package. *)
Theorem cached_index_is_final (evs evs' : list event) (index : PackagesIndex) :
  cachedPackagesIndex (run url evs) = Some index ->
  run url (evs ++ evs') = run url evs
  /\ fst (fetchPackagesIndex (run url (evs ++ evs'))) = ReturnsIndex index
  /\ (exists net,
        In (Answer 0 net) evs /\ getPackagesIndex url net = inr index)
  /\ Forall (fun pkg => name pkg <> lit "dummy-package") (packages index).
Proof.
  intros Ca.
  destruct (cache_invariant_run url evs) as [E|[status [Fp [Ps [Nr Ca']]]]].
  - rewrite E in Ca. discriminate.
  - rewrite Ca in Ca'. destruct status as [|value|reason]; try discriminate.
    injection Ca' as ->.
    assert (R : run url (evs ++ evs') = run url evs).
    { apply (@settled_run _ url evs evs' _ Ps). discriminate. }
    pose proof (settled_by_answer url evs Ps) as [net [Hin Hf]].
    split; [exact R|]. split; [|split].
    + rewrite R. unfold fetchPackagesIndex. rewrite Ca. reflexivity.
    + exists net. split; [exact Hin|].
      rewrite getPackagesIndex_await. exact Hf.
    + apply fetch_and_validate_success in Hf.
      destruct Hf as [response [json [output [_ [_ [_ [_ [_ Pk]]]]]]]].
      apply Forall_forall. intros pkg Hp. rewrite Pk in Hp.
      apply filter_In in Hp. apply not_dummy_iff, Hp.
Qed.

(** X20: once the request has failed nothing changes any more either:
    the cache stays empty, the promise stays rejected with the error of
    the failed request, and every later call returns that promise. *)
Theorem rejected_fetch_is_final (evs evs' : list event) (reason : thrown) :
  promises (run url evs) = [Rejected reason] ->
  run url (evs ++ evs') = run url evs
  /\ cachedPackagesIndex (run url (evs ++ evs')) = None
  /\ fst (fetchPackagesIndex (run url (evs ++ evs'))) = ReturnsPromise 0
  /\ exists net,
       In (Answer 0 net) evs /\ getPackagesIndex url net = inl reason.
Proof.
  intros Ps.
  assert (R : run url (evs ++ evs') = run url evs).
  { apply (@settled_run _ url evs evs' _ Ps). discriminate. }
  destruct (cache_invariant_run url evs) as [E|[status [Fp [Ps' [Nr Ca]]]]].
  - rewrite E in Ps. discriminate.
  - rewrite Ps in Ps'. injection Ps' as <-.
    pose proof (settled_by_answer url evs Ps) as [net [Hin Hf]].
    split; [exact R|]. rewrite R. split; [exact Ca|]. split.
    + unfold fetchPackagesIndex. rewrite Ca, Fp. reflexivity.
    + exists net. split; [exact Hin|].
      rewrite getPackagesIndex_await. exact Hf.
Qed.

End MoreCacheFacts.

Section MoreGitHubFacts.
Import PackageRoute.

Lemma regexp_match_group (s group : jsstring) :
  regexp_match s = Some group ->
  exists owner repo,
    component owner /\ component repo /\ group = owner ++ slash :: repo.
Proof.
  intros E. destruct (@regexp_match_Some s group E) as [pre [s' [_ [M _]]]].
  destruct (@match_here_sound s' group M)
    as [owner [repo [rest [[_ [O R]] [_ G]]]]].
  exists owner, repo. auto.
Qed.

Lemma regexp_match_here (s group : jsstring) :
  match_here s = Some group -> regexp_match s = Some group.
Proof.
  intros M. destruct s as [|c s]; [discriminate M|].
  cbn [regexp_match]. rewrite M. reflexivity.
Qed.

(** Where the string does not begin with a "g" the expression does not
    match, and the search moves on. *)
Lemma regexp_match_skip (c : code_unit) (s : jsstring) :
  N.eqb 103 c = false -> regexp_match (c :: s) = regexp_match s.
Proof.
  intros Hc. cbn [regexp_match]. unfold match_here at 1.
  change (lit "github.com/") with (103%N :: lit "ithub.com/").
  cbn [strip_prefix]. rewrite Hc. reflexivity.
Qed.

(** X21: the link [getGitHubUrl] derives is a GitHub repository
    address, "https://github.com/" followed by an owner and a
    repository name without a slash, and deriving the link of a link
    gives the link itself. *)
Theorem getGitHubUrl_link_is_fixed (archiveUrl link : jsstring) :
  getGitHubUrl archiveUrl = Some link ->
  (exists owner repo,
     component owner /\ component repo
     /\ link = lit "https://github.com/" ++ owner ++ slash :: repo)
  /\ getGitHubUrl link = Some link.
Proof.
  unfold getGitHubUrl at 1.
  destruct (regexp_match archiveUrl) as [group|] eqn:E; [|discriminate].
  intros L. injection L as <-.
  destruct (@regexp_match_group _ _ E) as [owner [repo [O [R ->]]]].
  split; [exists owner, repo; auto|].
  assert (M : match_here (lit "github.com/" ++ owner ++ slash :: repo)
              = Some (owner ++ slash :: repo)).
  { assert (Hr : repository_at (lit "github.com/" ++ owner ++ slash :: repo)
                   [] owner repo []).
    { split; [|split; assumption]. rewrite app_nil_r. reflexivity. }
    rewrite (match_here_complete Hr). simpl span_non_slash.
    cbn [fst]. rewrite app_nil_r. reflexivity. }
  unfold getGitHubUrl.
  change (lit "https://github.com/" ++ owner ++ slash :: repo)
    with (104 :: 116 :: 116 :: 112 :: 115 :: 58 :: 47 :: 47
          :: lit "github.com/" ++ owner ++ slash :: repo)%N.
  rewrite !regexp_match_skip by reflexivity.
  pose proof (@regexp_match_here _ _ M) as Rm.
  match goal with
  | |- match regexp_match ?x with _ => _ end = _ =>
      change x with (lit "github.com/" ++ owner ++ slash :: repo)
  end.
  rewrite Rm. reflexivity.
Qed.

End MoreGitHubFacts.

Section MorePrerenderFacts.
Context {H : Host}.
Import Packages.
Variable url : jsstring.
Variable net : fetch_outcome.
Variable index : PackagesIndex.
Hypothesis fetched : getPackagesIndex url net = inr index.

Lemma firstn_incl (A : Type) (n : nat) (l : list A) : incl (firstn n l) l.
Proof.
  intros x Hx. rewrite <- (firstn_skipn n l). apply in_or_app. left. exact Hx.
Qed.

(** X22: the revisions of [prerender] nest: the revision that slices
    returns at most eight paths, each of them "/search" or a path of
    the full revision, and every path of the first revision is a path
    of the full one; the full revision returns one path for the home
    page, one for each package name and one for each entry. *)
Theorem prerender_revisions_nest :
  exists names full sliced first,
    getUniquePackageNames url net = inr names
    /\ RouterConfig.prerender url net = inr full
    /\ RouterConfig.prerender_sliced url net = inr sliced
    /\ RouterConfig.prerender_names url net = inr first
    /\ List.length full
       = 1 + List.length names + List.length (packages index)
    /\ List.length sliced <= 8
    /\ (forall path, In path sliced -> path = lit "/search" \/ In path full)
    /\ incl first full.
Proof.
  destruct (@getUniquePackageNames_spec _ url net index fetched)
    as [names [E _]].
  unfold RouterConfig.prerender, RouterConfig.prerender_sliced,
    RouterConfig.prerender_names, getAllPackageVersionPaths.
  rewrite E, fetched. cbn [bind ret].
  set (versionPaths :=
         map (fun p => lit "/" ++ name p ++ lit "/v/" ++ version p)
             (packages index)).
  eexists names, _, _, _. split; [reflexivity|].
  split; [reflexivity|]. split; [reflexivity|]. split; [reflexivity|].
  split; [|split; [|split]].
  - cbn [List.length]. rewrite length_app, length_map.
    unfold versionPaths. rewrite length_map. reflexivity.
  - cbn [app List.length]. rewrite length_app, length_map.
    do 2 apply le_n_S.
    apply (Nat.add_le_mono _ 3 _ 3); apply firstn_le_length.
  - cbn [app]. intros path Hp. cbn [In] in Hp.
    destruct Hp as [<-|[<-|Hp]];
      [right; left; reflexivity | left; reflexivity|].
    right. right. apply in_app_or in Hp. apply in_or_app.
    destruct Hp as [Hp|Hp].
    + left. apply in_map_iff in Hp. destruct Hp as [n [<- Hn]].
      apply in_map. apply (@firstn_incl _ 3 names n Hn).
    + right. apply (@firstn_incl _ 3 versionPaths path Hp).
  - intros path [<-|Hp]; [left; reflexivity|].
    right. apply in_or_app. left. exact Hp.
Qed.

End MorePrerenderFacts.

(* ================================================================== *)
(** * The version schema and the package id                             *)
(* ================================================================== *)

Section SchemaFacts.
Import Schema.

Lemma span_digits_spec (s : jsstring) :
  s = fst (span_digits s) ++ snd (span_digits s)
  /\ Forall (fun c => is_digit c = true) (fst (span_digits s)).
Proof.
  induction s as [|c s [E F]]; simpl; [auto|].
  destruct (is_digit c) eqn:D; simpl; [|auto].
  destruct (span_digits s) as [run rest]; simpl in *.
  split; [congruence | constructor; assumption].
Qed.

Lemma digits_dot_spec (s rest : jsstring) :
  digits_dot s = Some rest ->
  exists run,
    s = run ++ dot :: rest /\ run <> []
    /\ Forall (fun c => is_digit c = true) run.
Proof.
  unfold digits_dot. destruct (span_digits_spec s) as [E F].
  destruct (span_digits s) as [[|d run] [|c r]]; simpl in *; try discriminate.
  destruct (N.eqb_spec c dot) as [->|]; [|discriminate].
  intros R. injection R as <-.
  exists (d :: run). split; [exact E|]. split; [discriminate | exact F].
Qed.

(** A version the schema accepts is three runs of digits with a dot
    between them. *)
Lemma PackageVersionSchema_shape (v : jsstring) :
  PackageVersionSchema v = true ->
  exists major minor patch,
    v = major ++ dot :: minor ++ dot :: patch
    /\ major <> [] /\ minor <> [] /\ patch <> []
    /\ Forall (fun c => is_digit c = true) (major ++ minor ++ patch).
Proof.
  unfold PackageVersionSchema.
  destruct (digits_dot v) as [s1|] eqn:D1; [|discriminate].
  destruct (digits_dot s1) as [s2|] eqn:D2; [|discriminate].
  destruct (digits_dot_spec _ D1) as [major [E1 [N1 F1]]].
  destruct (digits_dot_spec _ D2) as [minor [E2 [N2 F2]]].
  destruct (span_digits_spec s2) as [E3 F3].
  destruct (span_digits s2) as [[|d patch] [|c r]]; simpl in *;
    try discriminate.
  intros _. rewrite app_nil_r in E3.
  exists major, minor, (d :: patch). subst.
  split; [reflexivity|]. split; [exact N1|]. split; [exact N2|].
  split; [discriminate|].
  rewrite !Forall_app. auto.
Qed.

Lemma is_digit_not_hyphen (c : code_unit) :
  is_digit c = true -> c <> hyphen.
Proof.
  unfold is_digit, hyphen. intros D ->. discriminate.
Qed.

Lemma PackageVersionSchema_no_hyphen (v : jsstring) :
  PackageVersionSchema v = true -> ~ In hyphen v.
Proof.
  intros V. destruct (PackageVersionSchema_shape _ V)
    as [major [minor [patch [-> [_ [_ [_ F]]]]]]].
  rewrite !Forall_app in F. destruct F as [F1 [F2 F3]].
  rewrite Forall_forall in F1, F2, F3.
  rewrite in_app_iff. simpl. rewrite in_app_iff. simpl.
  intros [Hh|[Hh|[Hh|[Hh|Hh]]]]; try discriminate;
    eapply is_digit_not_hyphen; eauto.
Qed.

Lemma split_at_last_hyphen (a a' b b' : jsstring) :
  a ++ hyphen :: b = a' ++ hyphen :: b' ->
  ~ In hyphen b -> ~ In hyphen b' -> a = a' /\ b = b'.
Proof.
  revert a'. induction a as [|c a IH]; intros [|c' a']; simpl; intros E Hb Hb'.
  - injection E as ->. auto.
  - injection E as <- ->. exfalso. apply Hb, in_or_app. right. left. reflexivity.
  - injection E as -> <-. exfalso. apply Hb', in_or_app. right. left. reflexivity.
  - injection E as -> E. destruct (IH _ E Hb Hb') as [-> ->]. auto.
Qed.

(** X23: the [id] of a package tells its name and its version: two
    packages whose versions the version schema accepts have the same
    [id] only if they have the same name and the same version. A
    version the schema accepts is three runs of digits with dots
    between them. *)
Theorem make_id_injective (name1 version1 name2 version2 : jsstring) :
  PackageVersionSchema version1 = true ->
  PackageVersionSchema version2 = true ->
  make_id name1 version1 = make_id name2 version2 ->
  name1 = name2 /\ version1 = version2.
Proof.
  intros V1 V2 E. unfold make_id in E.
  apply (split_at_last_hyphen _ _ _ _ E);
    apply PackageVersionSchema_no_hyphen; assumption.
Qed.

End SchemaFacts.

(* ================================================================== *)
(** * The theorems above at work on the sample host                     *)
(* ================================================================== *)

Section Witnesses.
Import SampleHost.

Lemma getUniquePackageNames_first_occurrences_witness :
  Packages.getPackagesIndex url (serves small_index) = inr small_index_served
  /\ exists names,
       Packages.getUniquePackageNames url (serves small_index) = inr names
       /\ NoDup names.
Proof.
  split; [reflexivity|].
  destruct (@getUniquePackageNames_first_occurrences host url
              (serves small_index) small_index_served eq_refl)
    as [names [E [_ [N _]]]].
  exists names. split; assumption.
Defined.

Lemma getPackageByNameAndVersion_first_entry_witness :
  Packages.getPackagesIndex url (serves small_index) = inr small_index_served
  /\ exists found,
       Packages.getPackageByNameAndVersion url (serves small_index)
         (lit "greek") (lit "0.9.0") = inr found.
Proof.
  split; [reflexivity|].
  destruct (@getPackageByNameAndVersion_first_entry host url
              (serves small_index) small_index_served eq_refl
              (lit "greek") (lit "0.9.0")) as [found [E _]].
  exists found. exact E.
Defined.

Lemma getVersionsForPackage_distinct_latest_first_witness :
  Packages.getPackagesIndex url (serves small_index) = inr small_index_served
  /\ ConsistentCompare host
  /\ exists versions,
       Packages.getVersionsForPackage url (serves small_index) (lit "greek")
       = inr versions
       /\ NoDup versions.
Proof.
  split; [reflexivity|]. split; [exact host_consistent|].
  destruct (@getVersionsForPackage_distinct_latest_first host url
              (serves small_index) small_index_served eq_refl
              host_consistent (lit "greek")) as [versions [E [N _]]].
  exists versions. split; assumption.
Defined.

Lemma getVersionsForPackage_starts_with_latest_witness :
  Packages.getPackagesIndex url (serves small_index) = inr small_index_served
  /\ Packages.getPackageByName url (serves small_index) (lit "greek")
     = inr (Some (pkg "greek" "0.10.0" [lit "math"]))
  /\ exists versions,
       Packages.getVersionsForPackage url (serves small_index) (lit "greek")
       = inr versions
       /\ nth_error versions 0 = Some (lit "0.10.0").
Proof.
  split; [reflexivity|]. split; [reflexivity|].
  exact (@getVersionsForPackage_starts_with_latest host url
           (serves small_index) small_index_served eq_refl
           (lit "greek") (pkg "greek" "0.10.0" [lit "math"]) eq_refl).
Defined.

Lemma loader_isLatest_iff_latest_version_witness :
  exists data,
    PackageRoute.loader url (serves small_index)
      {| PackageRoute.packageName := lit "greek";
         PackageRoute.version := Some (lit "0.10.0") |} = inr data
    /\ PackageRoute.isLatest data = true
    /\ Packages.getPackageByName url (serves small_index) (lit "greek")
       = inr (Some (PackageRoute.package data)).
Proof.
  eexists. split; [reflexivity|]. split; [reflexivity|].
  apply (@loader_isLatest_iff_latest_version host url (serves small_index)
           small_index_served eq_refl
           {| PackageRoute.packageName := lit "greek";
              PackageRoute.version := Some (lit "0.10.0") |}
           _ host_consistent eq_refl).
  reflexivity.
Defined.

Lemma prerendered_package_pages_load_witness :
  (forall p, In p (packages small_index_served) -> version p <> [])
  /\ exists paths,
       RouterConfig.prerender url (serves small_index) = inr paths.
Proof.
  assert (V : forall p, In p (packages small_index_served) -> version p <> []).
  { intros p [<-|[<-|[<-|[]]]]; discriminate. }
  split; [exact V|].
  destruct (@prerendered_package_pages_load host url (serves small_index)
              small_index_served eq_refl V) as [paths [E _]].
  exists paths. exact E.
Defined.

Lemma handleVersionChange_stays_prerendered_witness :
  exists data paths,
    PackageRoute.loader url (serves small_index)
      {| PackageRoute.packageName := lit "greek";
         PackageRoute.version := None |} = inr data
    /\ In (lit "0.9.0") (PackageRoute.versions data)
    /\ RouterConfig.prerender url (serves small_index) = inr paths
    /\ In (PackagePage.handleVersionChange
             (PackageRoute.package data) (PackageRoute.versions data)
             (lit "0.9.0")) paths.
Proof.
  eexists.
  assert (V : In (lit "0.9.0") [lit "0.10.0"; lit "0.9.0"])
    by (right; left; reflexivity).
  destruct (@handleVersionChange_stays_prerendered host url
              (serves small_index) small_index_served eq_refl
              {| PackageRoute.packageName := lit "greek";
                 PackageRoute.version := None |}
              _ (lit "0.9.0") eq_refl V) as [paths [E Hin]].
  exists paths. split; [reflexivity|]. split; [exact V|].
  split; [exact E | exact Hin].
Defined.

Lemma index_failure_reaches_every_caller_witness :
  Packages.getPackagesIndex (H := host) url
    (Packages.FetchRejected (lit "fetch failed"))
  = inl (HostFailure (lit "fetch failed"))
  /\ RouterConfig.prerender (H := host) url
       (Packages.FetchRejected (lit "fetch failed"))
     = inl (HostFailure (lit "fetch failed")).
Proof.
  split; [reflexivity|].
  apply (@index_failure_reaches_every_caller host url
           (Packages.FetchRejected (lit "fetch failed"))
           (HostFailure (lit "fetch failed")) eq_refl).
Defined.

Lemma plain_math : plain_tag (lit "math").
Proof.
  split; [discriminate|].
  intros Hin. repeat (destruct Hin as [Hin|Hin]; [discriminate|]).
  exact Hin.
Qed.

Lemma selectedTags_of_joined_tags_witness :
  [lit "fun"; lit "math"] <> []
  /\ Forall well_formed [lit "fun"; lit "math"]
  /\ SearchRoute.selectedTags
       {| SearchRoute.textQuery := [];
          SearchRoute.searchParams :=
            SearchRoute.setSearchParams
              (Some (join [lit "fun"; lit "math"])) |}
     = [lit "fun"; lit "math"].
Proof.
  assert (W : Forall well_formed [lit "fun"; lit "math"]).
  { constructor; [reflexivity|]. constructor; [reflexivity | constructor]. }
  split; [discriminate|]. split; [exact W|].
  apply (selectedTags_of_joined_tags []); [discriminate | | exact W].
  constructor; [|constructor; [exact plain_math | constructor]].
  split; [discriminate|].
  intros Hin. repeat (destruct Hin as [Hin|Hin]; [discriminate|]).
  exact Hin.
Defined.

Lemma toggleTag_adds_or_removes_witness :
  plain_tag (toLowerCase (Host := host) (lit "Math"))
  /\ well_formed (toLowerCase (Host := host) (lit "Math"))
  /\ well_formed_state
       {| SearchRoute.textQuery := [];
          SearchRoute.searchParams := Some (lit "fun") |}
  /\ SearchRoute.searchParams
       (SearchRoute.toggleTag (H := host)
          {| SearchRoute.textQuery := [];
             SearchRoute.searchParams := Some (lit "fun") |} (lit "Math"))
     <> Some [].
Proof.
  split; [exact plain_math|]. split; [reflexivity|]. split; [reflexivity|].
  apply (@toggleTag_adds_or_removes host
           {| SearchRoute.textQuery := [];
              SearchRoute.searchParams := Some (lit "fun") |}
           (lit "Math") plain_math eq_refl eq_refl).
Defined.

Lemma toggleTag_twice_witness :
  plain_tag (toLowerCase (Host := host) (lit "Math"))
  /\ well_formed (toLowerCase (Host := host) (lit "Math"))
  /\ well_formed_state
       {| SearchRoute.textQuery := [];
          SearchRoute.searchParams := Some (lit "fun") |}
  /\ (In (lit "fun")
         (SearchRoute.selectedTags
            (SearchRoute.toggleTag (H := host)
               (SearchRoute.toggleTag (H := host)
                  {| SearchRoute.textQuery := [];
                     SearchRoute.searchParams := Some (lit "fun") |}
                  (lit "Math")) (lit "Math")))
      <-> In (lit "fun")
             (SearchRoute.selectedTags
                {| SearchRoute.textQuery := [];
                   SearchRoute.searchParams := Some (lit "fun") |})).
Proof.
  split; [exact plain_math|]. split; [reflexivity|]. split; [reflexivity|].
  apply (@toggleTag_twice host
           {| SearchRoute.textQuery := [];
              SearchRoute.searchParams := Some (lit "fun") |}
           (lit "Math") plain_math eq_refl eq_refl (lit "fun")).
Defined.

(** A tag that is a lone surrogate is stored as U+FFFD: ticking it
    selects U+FFFD and not the tag, and ticking it again selects U+FFFD
    twice. *)
Example toggleTag_lone_surrogate :
  SearchRoute.searchParams
    (SearchRoute.toggleTag (H := host)
       {| SearchRoute.textQuery := []; SearchRoute.searchParams := None |}
       [55357%N])
  = Some [65533%N]
  /\ SearchRoute.searchParams
       (SearchRoute.toggleTag (H := host)
          (SearchRoute.toggleTag (H := host)
             {| SearchRoute.textQuery := [];
                SearchRoute.searchParams := None |}
             [55357%N])
          [55357%N])
     = Some [65533%N; comma; 65533%N].
Proof. split; reflexivity. Qed.

Lemma host_lower_case_stable : lower_case_stable host.
Proof.
  intros s. simpl. rewrite map_map. apply map_ext. intros c.
  unfold lower.
  destruct (N.leb 65 c && N.leb c 90) eqn:E; [|rewrite E; reflexivity].
  apply andb_true_iff in E. destruct E as [A B]. apply N.leb_le in A, B.
  assert (F : N.leb (c + 32) 90 = false) by (apply N.leb_gt; lia).
  rewrite F, andb_false_r. reflexivity.
Qed.

Lemma counted_tag_selects_packages_witness :
  lower_case_stable host
  /\ In {| Search.tag := lit "math"; Search.count := 2 |}
        (Search.countTags (H := host) (packages small_index_served))
  /\ Search.filterByTags (H := host) (packages small_index_served)
       [lit "math"] <> [].
Proof.
  assert (E : In {| Search.tag := lit "math"; Search.count := 2 |}
                (Search.countTags (H := host) (packages small_index_served)))
    by (left; reflexivity).
  split; [exact host_lower_case_stable|]. split; [exact E|].
  apply (@counted_tag_selects_packages host (packages small_index_served)
           {| Search.tag := lit "math"; Search.count := 2 |}
           host_lower_case_stable E).
Defined.

Lemma cached_index_is_final_witness :
  Packages.cachedPackagesIndex
    (Packages.run url
       [Packages.Call; Packages.Answer 0 (serves small_index)])
  = Some small_index_served
  /\ Packages.run url
       ([Packages.Call; Packages.Answer 0 (serves small_index)]
        ++ [Packages.Call;
            Packages.Answer 0 (Packages.FetchRejected (lit "late"))])
     = Packages.run url
         [Packages.Call; Packages.Answer 0 (serves small_index)].
Proof.
  split; [reflexivity|].
  apply (@cached_index_is_final host url
           [Packages.Call; Packages.Answer 0 (serves small_index)]
           [Packages.Call;
            Packages.Answer 0 (Packages.FetchRejected (lit "late"))]
           small_index_served eq_refl).
Defined.

Lemma rejected_fetch_is_final_witness :
  Packages.promises
    (Packages.run url
       [Packages.Call;
        Packages.Answer 0 (Packages.FetchRejected (lit "fetch failed"))])
  = [Packages.Rejected (HostFailure (lit "fetch failed"))]
  /\ Packages.cachedPackagesIndex
       (Packages.run url
          ([Packages.Call;
            Packages.Answer 0 (Packages.FetchRejected (lit "fetch failed"))]
           ++ [Packages.Call; Packages.Answer 0 (serves small_index)]))
     = None.
Proof.
  split; [reflexivity|].
  apply (@rejected_fetch_is_final host url
           [Packages.Call;
            Packages.Answer 0 (Packages.FetchRejected (lit "fetch failed"))]
           [Packages.Call; Packages.Answer 0 (serves small_index)]
           (HostFailure (lit "fetch failed")) eq_refl).
Defined.

Lemma getGitHubUrl_link_is_fixed_witness :
  PackageRoute.getGitHubUrl
    (lit "https://github.com/espanso/hub/releases/download/v1.0.0/greek-0.9.0.zip")
  = Some (lit "https://github.com/espanso/hub")
  /\ PackageRoute.getGitHubUrl (lit "https://github.com/espanso/hub")
     = Some (lit "https://github.com/espanso/hub").
Proof.
  split; [reflexivity|].
  apply (@getGitHubUrl_link_is_fixed
           (lit "https://github.com/espanso/hub/releases/download/v1.0.0/greek-0.9.0.zip")
           (lit "https://github.com/espanso/hub") eq_refl).
Defined.

Lemma prerender_revisions_nest_witness :
  Packages.getPackagesIndex url (serves four_packages) = inr four_packages
  /\ exists sliced,
       RouterConfig.prerender_sliced url (serves four_packages) = inr sliced
       /\ List.length sliced <= 8.
Proof.
  split; [reflexivity|].
  destruct (@prerender_revisions_nest host url (serves four_packages)
              four_packages eq_refl)
    as [names [full [sliced [first [_ [_ [E [_ [_ [L _]]]]]]]]]].
  exists sliced. split; assumption.
Defined.

Lemma make_id_injective_witness :
  Schema.PackageVersionSchema (lit "0.10.0") = true
  /\ Schema.make_id (lit "greek") (lit "0.10.0")
     = Schema.make_id (lit "greek") (lit "0.10.0")
  /\ lit "greek" = lit "greek" /\ lit "0.10.0" = lit "0.10.0".
Proof.
  split; [reflexivity|]. split; [reflexivity|].
  apply (@make_id_injective (lit "greek") (lit "0.10.0")
           (lit "greek") (lit "0.10.0") eq_refl eq_refl eq_refl).
Defined.

End Witnesses.

Section TagSelectionFacts.
Context {H : Host}.
Import SearchRoute.

(** X24: from a page without active filter, ticking a tag whose lower
    case is not empty and has no comma and no lone surrogate shows
    exactly the packages that carry the tag (lower case compared with
    lower case), in the order in which the page was given them. *)
Theorem ticking_a_tag_filters_by_it (packages : list Package) (st : State)
  (tag' : jsstring) :
  plain_tag (toLowerCase tag') ->
  well_formed (toLowerCase tag') ->
  hasActiveFilters st = false ->
  selectedTags (toggleTag st tag') = [toLowerCase tag']
  /\ Selection (has_selected_tag [toLowerCase tag']) packages
               (filteredPackages packages (toggleTag st tag')).
Proof.
  intros Hp Wt Ha. unfold hasActiveFilters in Ha.
  apply orb_false_iff in Ha. destruct Ha as [Hq Hs].
  apply negb_false_iff, str_eqb_eq, trim_empty in Hq.
  assert (Es : selectedTags st = [])
    by (destruct (selectedTags st); [reflexivity | discriminate]).
  assert (En : newTags st tag' = [toLowerCase tag'])
    by (unfold newTags; rewrite Es; reflexivity).
  assert (Hw : Forall well_formed (newTags st tag'))
    by (rewrite En; constructor; [exact Wt | constructor]).
  destruct (@toggleTag_selectedTags _ st tag' Hp Hw) as [E _].
  rewrite En in E. cbn [sort sort_insert] in E.
  split; [exact E|].
  unfold filteredPackages. rewrite applyFilters_compose, E.
  assert (Q : textQuery (toggleTag st tag') = textQuery st)
    by (unfold toggleTag;
        destruct (Nat.ltb 0 (List.length (newTags st tag'))); reflexivity).
  rewrite Q, (textSearch_blank _ Hq).
  unfold Search.filterByTags. cbn [List.length Nat.eqb].
  apply filter_Selection. intros pkg. apply selected_by_tags.
Qed.

End TagSelectionFacts.

Lemma ticking_a_tag_filters_by_it_witness :
  plain_tag (toLowerCase (Host := SampleHost.host) (lit "Math"))
  /\ well_formed (toLowerCase (Host := SampleHost.host) (lit "Math"))
  /\ SearchRoute.hasActiveFilters
       {| SearchRoute.textQuery := lit " ";
          SearchRoute.searchParams := None |} = false
  /\ SearchRoute.selectedTags
       (SearchRoute.toggleTag (H := SampleHost.host)
          {| SearchRoute.textQuery := lit " ";
             SearchRoute.searchParams := None |} (lit "Math"))
     = [lit "math"].
Proof.
  split; [exact plain_math|]. split; [reflexivity|]. split; [reflexivity|].
  apply (@ticking_a_tag_filters_by_it SampleHost.host
           (packages SampleHost.small_index_served)
           {| SearchRoute.textQuery := lit " ";
              SearchRoute.searchParams := None |}
           (lit "Math") plain_math eq_refl eq_refl).
Defined.
